(** * Dracula theme generator: [scripts/generate.js]

    A shallow embedding of the theme pipeline: the post-load sanitation of
    the colour mapping, the soft transform and the high-contrast transform,
    first as functions on theme values, then over an explicit object store
    where the deep copy and the in-place assignments are visible. *)

From Stdlib Require Import Ascii.
From stdpp Require Import gmap strings list fin_maps pretty.


(** * JavaScript string predicates used on colour keys *)

Module JsString.

(** [s.startsWith(p)] *)
Fixpoint startsWith (s p : string) {struct p} : bool :=
  match p, s with
  | EmptyString, _ => true
  | String a p', String b s' => bool_decide (a = b) && startsWith s' p'
  | String _ _, EmptyString => false
  end.

(** [s.includes(sub)]: some position of [s] starts an occurrence of [sub]. *)
Fixpoint includes (s sub : string) : bool :=
  startsWith s sub ||
  match s with
  | EmptyString => false
  | String _ s' => includes s' sub
  end.

(** [s.endsWith(suffix)]: the comparison starts at [length s - length suffix]
    and fails when that index is negative. *)
Definition endsWith (s suffix : string) : bool :=
  let n := String.length s in
  let k := String.length suffix in
  bool_decide (k ≤ n)%nat && bool_decide (String.substring (n - k) k s = suffix).

End JsString.

(** * Theme values *)

(** A colour value as the loader stores it: [null] or a string.  A key that
    reads [undefined] is a key the mapping does not hold; [JSON.stringify]
    and property reads do not tell the two apart. *)
Inductive jsval := Null | Str (s : string).

#[global] Instance jsval_eq_dec : EqDecision jsval.
Proof. solve_decision. Defined.

(** The [dracula] palette groups. *)
Record Dracula := {
  base : list string;
  ansi : list string;
  brightOther : list string;
  other : list string }.

(** Textmate token settings; an absent field reads [undefined]. *)
Record Settings := {
  foreground : option string;
  background : option string;
  fontStyle : option string }.

Record TokenColor := {
  name : option string;
  scope : list string;
  settings : Settings }.

Record Theme := {
  dracula : Dracula;
  colors : gmap string jsval;
  tokenColors : list TokenColor }.

(** * Objects as maps, and loops over their keys *)

Section objects.
Context {V : Type}.

(** [Object.keys(o)].  The order of enumeration is not modelled; no loop
    below depends on it (see [for_of_local]). *)
Definition Object_keys (o : gmap string V) : list string := (map_to_list o).*1.

(** [for (const x of xs) body], threading the object the body assigns to. *)
Definition for_of {A S : Type} (xs : list A) (body : A → S → S) (s : S) : S :=
  foldl (λ acc x, body x acc) s xs.

(** An object literal [{k1: v1, k2: v2, ...}]: properties are defined in
    order, a repeated key keeps the last value. *)
Definition object_literal (l : list (string * V)) : gmap string V :=
  for_of l (λ kv o, <[kv.1 := kv.2]> o) ∅.

(** [Object.assign(target, source)]: every own property of [source] is
    assigned on [target]. *)
Definition Object_assign (target source : gmap string V) : gmap string V :=
  for_of (map_to_list source) (λ kv o, <[kv.1 := kv.2]> o) target.

End objects.

(** * Post-load sanitation *)

(** JavaScript truthiness of a property read: [undefined], [null] and the
    empty string are falsy. *)
Definition truthy (v : option jsval) : bool :=
  match v with
  | Some (Str s) => negb (bool_decide (s = ""))
  | Some Null | None => false
  end.

(** [for (const key of Object.keys(base.colors)) if (!base.colors[key]) delete base.colors[key]] *)
Definition sanitize_body (key : string) (colors : gmap string jsval) : gmap string jsval :=
  if negb (truthy (colors !! key)) then delete key colors else colors.

Definition sanitize_colors (colors : gmap string jsval) : gmap string jsval :=
  for_of (Object_keys colors) sanitize_body colors.

Definition sanitize (loaded : Theme) : Theme :=
  {| dracula := dracula loaded;
     colors := sanitize_colors (colors loaded);
     tokenColors := tokenColors loaded |}.

(** * The tinycolor2 interface

    [tinycolor2] is a dependency of the script, not part of it.  The
    transforms are stated over any implementation of the three calls the
    script makes: [tinycolor(s)], [.desaturate(n)] and [.toHexString()]. *)
Class TinyColor := {
  tc : Type;
  tinycolor : string → tc;
  desaturate : tc → Z → tc;
  toHexString : tc → string }.

(** The value-level effect of [JSON.parse(JSON.stringify(theme))] on a theme:
    the copy holds the same data.  What the copy allocates is the subject of
    the module [Store] below. *)
Definition JSON_clone (theme : Theme) : Theme := theme.

(** * Soft transform *)

(** [[...soft.dracula.ansi, ...soft.dracula.brightOther]] *)
Definition brightColors (soft : Theme) : list string :=
  (ansi (dracula soft) ++ brightOther (dracula soft))%list.

Section soft.
Context `{TinyColor}.

(** [tinycolor(c).desaturate(20).toHexString()] *)
Definition soften (c : string) : string :=
  toHexString (desaturate (tinycolor c) 20).

(** Body of the loop over [soft.colors].  [bright] holds strings, so
    [includes] can only answer true for a string value. *)
Definition soft_body (bright : list string) (key : string)
    (colors : gmap string jsval) : gmap string jsval :=
  match colors !! key with
  | Some (Str c) =>
      if bool_decide (c ∈ bright) then <[key := Str (soften c)]> colors
      else colors
  | Some Null | None => colors
  end.

(** Callback of [soft.tokenColors.map]. *)
Definition soft_token (bright : list string) (value : TokenColor) : TokenColor :=
  match foreground (settings value) with
  | Some c =>
      if bool_decide (c ∈ bright) then
        {| name := name value;
           scope := scope value;
           settings := {| foreground := Some (soften c);
                          background := background (settings value);
                          fontStyle := fontStyle (settings value) |} |}
      else value
  | None => value
  end.

Definition transformSoft (theme : Theme) : Theme :=
  let soft := JSON_clone theme in
  let bright := brightColors soft in
  {| dracula := dracula soft;
     colors := for_of (Object_keys (colors soft)) (soft_body bright) (colors soft);
     tokenColors := soft_token bright <$> tokenColors soft |}.

End soft.

(** * High-contrast transform *)

Definition bgKeys : list string :=
  [ "activityBar.background";
    "breadcrumb.background";
    "debugToolBar.background";
    "editor.background";
    "editorGutter.background";
    "editorGroup.background";
    "editorGroupHeader.tabsBackground";
    "editorGroupHeader.noTabsBackground";
    "editorHoverWidget.background";
    "editorMarkerNavigation.background";
    "editorSuggestWidget.background";
    "editorWidget.background";
    "input.background";
    "list.activeSelectionBackground";
    "list.dropBackground";
    "list.focusBackground";
    "list.hoverBackground";
    "list.inactiveSelectionBackground";
    "menu.background";
    "panel.background";
    "peekViewEditor.background";
    "peekViewResult.background";
    "peekViewTitle.background";
    "pickerGroup.border";
    "quickInput.background";
    "scrollbarSlider.background";
    "scrollbarSlider.hoverBackground";
    "scrollbarSlider.activeBackground";
    "settings.checkboxBackground";
    "settings.dropdownBackground";
    "settings.numberInputBackground";
    "settings.textInputBackground";
    "sideBar.background";
    "sideBarSectionHeader.background";
    "statusBar.background";
    "statusBar.noFolderBackground";
    "statusBar.debuggingBackground";
    "tab.activeBackground";
    "tab.inactiveBackground";
    "tab.unfocusedActiveBackground";
    "terminal.background";
    "titleBar.activeBackground";
    "titleBar.inactiveBackground";
    "walkThrough.embeddedEditorBackground";
    "welcomePage.background";
    "window.activeBorder" ].

(** Body of the sweep over [hc.colors]: each [continue] leaves the key as
    it is. *)
Definition sweep_body (key : string) (colors : gmap string jsval) : gmap string jsval :=
  if bool_decide (key ∈ bgKeys)
     || JsString.endsWith key "background"
     || JsString.endsWith key "Background"
  then
    if JsString.includes key "selection" || JsString.includes key "Selection" then colors
    else if JsString.includes key "button" then colors
    else if JsString.includes key "Badge" then colors
    else if JsString.includes key "diffEditor" then colors
    else if JsString.includes key "merge" then colors
    else if JsString.includes key "highlight" then colors
    else if JsString.includes key "OverviewRuler" then colors
    else <[key := Str "#000000"]> colors
  else colors.

(** Phase 1: the sweep. *)
Definition sweep (colors : gmap string jsval) : gmap string jsval :=
  for_of (Object_keys colors) sweep_body colors.

Definition overrides_literal : list (string * jsval) :=
  [ ("focusBorder", Str "#FFFFFF");
    ("contrastBorder", Str "#FFFFFF");
    ("contrastActiveBorder", Str "#FF79C6");
    ("editor.background", Str "#000000");
    ("editor.foreground", Str "#FFFFFF");
    ("foreground", Str "#FFFFFF");
    ("descriptionForeground", Str "#FFFFFF");
    ("errorForeground", Str "#FF5555");
    ("editor.selectionBackground", Str "#FFFFFF");
    ("editor.selectionForeground", Str "#000000");
    ("selection.background", Str "#000099");
    ("widget.shadow", Str "#000000");
    ("tab.activeBackground", Str "#000000");
    ("tab.activeBorder", Str "#FF79C6");
    ("tab.activeForeground", Str "#FFFFFF");
    ("tab.border", Str "#FFFFFF");
    ("tab.inactiveBackground", Str "#000000");
    ("tab.inactiveForeground", Str "#FFFFFF");
    ("sideBar.background", Str "#000000");
    ("sideBar.border", Str "#FFFFFF");
    ("sideBarTitle.foreground", Str "#FFFFFF");
    ("activityBar.background", Str "#000000");
    ("activityBar.border", Str "#FFFFFF");
    ("activityBar.foreground", Str "#FFFFFF");
    ("activityBar.activeBorder", Str "#FF79C6");
    ("editorGroup.border", Str "#FFFFFF");
    ("editorGroupHeader.tabsBackground", Str "#000000");
    ("editorGroupHeader.tabsBorder", Str "#FFFFFF");
    ("panel.background", Str "#000000");
    ("panel.border", Str "#FFFFFF");
    ("panelTitle.activeBorder", Str "#FF79C6");
    ("panelTitle.activeForeground", Str "#FFFFFF");
    ("panelTitle.inactiveForeground", Str "#FFFFFF");
    ("titleBar.activeBackground", Str "#000000");
    ("titleBar.activeForeground", Str "#FFFFFF");
    ("titleBar.inactiveBackground", Str "#000000");
    ("titleBar.inactiveForeground", Str "#FFFFFF");
    ("titleBar.border", Str "#FFFFFF");
    ("statusBar.background", Str "#000000");
    ("statusBar.border", Str "#FFFFFF");
    ("statusBar.foreground", Str "#FFFFFF");
    ("statusBar.debuggingBackground", Str "#000000");
    ("statusBar.debuggingBorder", Str "#FF5555");
    ("terminal.background", Str "#000000");
    ("terminal.border", Str "#FFFFFF");
    ("breadcrumb.background", Str "#000000");
    ("breadcrumb.foreground", Str "#FFFFFF");
    ("breadcrumbPicker.background", Str "#000000");
    ("sideBarSectionHeader.background", Str "#000000");
    ("sideBarSectionHeader.foreground", Str "#FFFFFF");
    ("sideBarSectionHeader.border", Str "#FFFFFF");
    ("button.background", Str "#000000");
    ("button.foreground", Str "#FFFFFF");
    ("button.border", Str "#FFFFFF");
    ("button.separator", Str "#FFFFFF");
    ("button.hoverBackground", Str "#44475A");
    ("button.secondaryBackground", Str "#000000");
    ("button.secondaryForeground", Str "#FFFFFF");
    ("button.secondaryHoverBackground", Str "#44475A");
    ("dropdown.background", Str "#000000");
    ("dropdown.border", Str "#FFFFFF");
    ("dropdown.foreground", Str "#FFFFFF");
    ("quickInput.background", Str "#000000");
    ("pickerGroup.border", Str "#FFFFFF");
    ("pickerGroup.foreground", Str "#FFFFFF");
    ("editorWidget.background", Str "#000000");
    ("editorWidget.border", Str "#FFFFFF");
    ("editorWidget.foreground", Str "#FFFFFF");
    ("editorSuggestWidget.background", Str "#000000");
    ("editorSuggestWidget.border", Str "#FFFFFF");
    ("editorSuggestWidget.foreground", Str "#FFFFFF");
    ("editorHoverWidget.background", Str "#000000");
    ("editorHoverWidget.border", Str "#FFFFFF");
    ("editorHoverWidget.foreground", Str "#FFFFFF");
    ("debugToolBar.background", Str "#000000");
    ("debugToolBar.border", Str "#FFFFFF");
    ("notificationCenter.border", Str "#FFFFFF");
    ("notificationCenterHeader.background", Str "#000000");
    ("notificationCenterHeader.foreground", Str "#FFFFFF");
    ("notificationToast.border", Str "#FFFFFF");
    ("notifications.background", Str "#000000");
    ("notifications.foreground", Str "#FFFFFF");
    ("notifications.border", Str "#FFFFFF");
    ("menu.background", Str "#000000");
    ("menu.foreground", Str "#FFFFFF");
    ("menu.selectionBackground", Str "#FFFFFF");
    ("menu.selectionForeground", Str "#000000");
    ("menu.border", Str "#FFFFFF");
    ("menu.separatorBackground", Str "#FFFFFF");
    ("peekView.border", Str "#FFFFFF");
    ("peekViewEditor.background", Str "#000000");
    ("peekViewEditor.matchHighlightBackground", Str "#FFFFFF");
    ("peekViewResult.background", Str "#000000");
    ("peekViewResult.fileForeground", Str "#FFFFFF");
    ("peekViewResult.lineForeground", Str "#FFFFFF");
    ("peekViewResult.matchHighlightBackground", Str "#FFFFFF");
    ("peekViewResult.selectionBackground", Str "#FFFFFF");
    ("peekViewResult.selectionForeground", Str "#000000");
    ("peekViewTitle.background", Str "#000000");
    ("peekViewTitleDescription.foreground", Str "#FFFFFF");
    ("peekViewTitleLabel.foreground", Str "#FFFFFF");
    ("settings.checkboxBackground", Str "#000000");
    ("settings.checkboxForeground", Str "#FFFFFF");
    ("settings.checkboxBorder", Str "#FFFFFF");
    ("settings.dropdownBackground", Str "#000000");
    ("settings.dropdownForeground", Str "#FFFFFF");
    ("settings.dropdownBorder", Str "#FFFFFF");
    ("settings.headerForeground", Str "#FFFFFF");
    ("settings.modifiedItemIndicator", Str "#FF79C6");
    ("settings.numberInputBackground", Str "#000000");
    ("settings.numberInputForeground", Str "#FFFFFF");
    ("settings.numberInputBorder", Str "#FFFFFF");
    ("settings.textInputBackground", Str "#000000");
    ("settings.textInputForeground", Str "#FFFFFF");
    ("settings.textInputBorder", Str "#FFFFFF");
    ("activityBarBadge.background", Str "#000000");
    ("activityBarBadge.foreground", Str "#FFFFFF");
    ("badge.background", Str "#000000");
    ("badge.foreground", Str "#FFFFFF");
    ("scrollbarSlider.background", Str "#FFFFFF60");
    ("scrollbarSlider.activeBackground", Str "#FFFFFF");
    ("scrollbarSlider.hoverBackground", Str "#FFFFFF");
    ("input.background", Str "#000000");
    ("input.foreground", Str "#FFFFFF");
    ("input.border", Str "#FFFFFF");
    ("diffEditor.insertedTextBackground", Str "#003500");
    ("diffEditor.insertedTextBorder", Str "#50FA7B");
    ("diffEditor.removedTextBackground", Str "#350000");
    ("diffEditor.removedTextBorder", Str "#FF5555");
    ("merge.currentHeaderBackground", Str "#000000");
    ("merge.currentContentBackground", Str "#000000");
    ("merge.incomingHeaderBackground", Str "#000000");
    ("merge.incomingContentBackground", Str "#000000");
    ("merge.border", Str "#FFFFFF");
    ("merge.commonHeaderBackground", Str "#000000");
    ("merge.commonContentBackground", Str "#000000");
    ("list.activeSelectionBackground", Str "#000000");
    ("list.activeSelectionForeground", Str "#FFFFFF");
    ("list.focusOutline", Str "#FF79C6");
    ("list.hoverBackground", Str "#000000");
    ("list.hoverForeground", Str "#FFFFFF");
    ("textPreformat.foreground", Str "#FFFFFF");
    ("textPreformat.background", Str "#282A36");
    ("textCodeBlock.background", Str "#000000");
    ("textLink.foreground", Str "#8BE9FD");
    ("textLink.activeForeground", Str "#8BE9FD");
    ("textBlockQuote.background", Str "#000000");
    ("textBlockQuote.border", Str "#FFFFFF");
    ("textSeparator.foreground", Str "#FFFFFF");
    ("keybindingLabel.background", Str "#000000");
    ("keybindingLabel.foreground", Str "#FFFFFF");
    ("keybindingLabel.border", Str "#FFFFFF");
    ("keybindingLabel.bottomBorder", Str "#FFFFFF") ].

Definition overrides : gmap string jsval := object_literal overrides_literal.

Definition transformHighContrast (theme : Theme) : Theme :=
  let hc := JSON_clone theme in
  {| dracula := dracula hc;
     colors := Object_assign (sweep (colors hc)) overrides;
     tokenColors := tokenColors hc |}.

(** * The exported generator: sanitise the loaded theme, derive the variants *)

Record Variants := { v_base : Theme; v_soft : Theme; v_hc : Theme }.

Definition generate `{TinyColor} (loaded : Theme) : Variants :=
  let base := sanitize loaded in
  {| v_base := base; v_soft := transformSoft base; v_hc := transformHighContrast base |}.

(** * Pointwise readings of the loop bodies

    What each loop body does to the value stored at the key it visits. *)

Definition sanitize_value (v : option jsval) : option jsval :=
  if truthy v then v else None.

Definition soft_value `{TinyColor} (bright : list string) (v : option jsval) : option jsval :=
  match v with
  | Some (Str c) => if bool_decide (c ∈ bright) then Some (Str (soften c)) else v
  | _ => v
  end.

(** The condition guarding the sweep, and the exemptions, as the loop tests
    them. *)
Definition background_role (key : string) : bool :=
  bool_decide (key ∈ bgKeys)
  || JsString.endsWith key "background"
  || JsString.endsWith key "Background".

Definition exempted (key : string) : bool :=
  JsString.includes key "selection" || JsString.includes key "Selection"
  || JsString.includes key "button"
  || JsString.includes key "Badge"
  || JsString.includes key "diffEditor"
  || JsString.includes key "merge"
  || JsString.includes key "highlight"
  || JsString.includes key "OverviewRuler".

Definition sweep_value (key : string) (v : option jsval) : option jsval :=
  if background_role key && negb (exempted key) then Some (Str "#000000") else v.

(** The exemption substrings, as the specification lists them. *)
Definition exemption_substrings : list string :=
  ["selection"; "Selection"; "button"; "Badge"; "diffEditor"; "merge";
   "highlight"; "OverviewRuler"].

(** A bare hex colour: [#] followed by six hexadecimal digits. *)
Definition is_hex_digit (a : Ascii.ascii) : bool :=
  bool_decide (a ∈ String.list_ascii_of_string "0123456789abcdefABCDEF").

Definition bare_hex (s : string) : bool :=
  match s with
  | String "#"%char digits =>
      bool_decide (String.length digits = 6)
      && forallb is_hex_digit (String.list_ascii_of_string digits)
  | _ => false
  end.

(** * Example data

    An implementation of the colour interface that only tags the string it
    is given, so that the transforms can be run on concrete themes and the
    rewritten values recognised. *)
Definition tagging_tinycolor : TinyColor :=
  {| tc := string * Z;
     tinycolor s := (s, 0%Z);
     desaturate c amount := (c.1, (c.2 + amount)%Z);
     toHexString c := c.1 +:+ "-" +:+ pretty c.2 |}.

Definition example_dracula : Dracula :=
  {| base := ["#282A36"; "#F8F8F2"; "#44475A"];
     ansi := ["#6272A4"; "#FF5555"];
     brightOther := ["#E9F284"];
     other := ["#FF79C6"] |}.

Definition example_tokens : list TokenColor :=
  [ {| name := Some "Errors";
       scope := ["invalid"];
       settings := {| foreground := Some "#FF5555"; background := None;
                      fontStyle := Some "italic" |} |};
    {| name := None;
       scope := ["comment"];
       settings := {| foreground := Some "#FF79C6"; background := None;
                      fontStyle := None |} |} ].

(** The colour mapping as loaded: one [null] entry and one empty string. *)
Definition example_loaded : Theme :=
  {| dracula := example_dracula;
     colors := object_literal
       [ ("editor.background", Str "#282A36");
         ("button.background", Str "#6272A4");
         ("statusBar.foreground", Str "#FF5555");
         ("editor.findMatchBackground", Str "#FF555580");
         ("minimap.background", Str "#44475A");
         ("tab.hoverBackground", Null);
         ("editorGroup.emptyBackground", Str "") ];
     tokenColors := example_tokens |}.

(** * The [!alpha] YAML type

    [js-yaml] is a dependency of the script.  What is modelled of it is the
    treatment of a node carrying an explicit tag: the node's kind must be the
    kind the type declares, the type's [resolve] must accept the node, and
    the result is what the type's [construct] returns; a type declared
    without [resolve] accepts every node. *)

Module Yaml.

(** Values of the scalars an [!alpha] sequence is written with, and of
    what [+] can return on them.  Numbers are integers, of the size
    JavaScript holds exactly and prints in plain decimal. *)
Inductive value :=
| Undefined
| Null
| Str (s : string)
| Num (n : Z)
| NaN.




Inductive kind := Scalar | Sequence | Mapping.

#[global] Instance kind_eq_dec : EqDecision kind.
Proof. solve_decision. Defined.





Inductive loaded := Loaded (v : value) | ParseError.


End Yaml.

(** * The transforms over an object store

    Objects and arrays live in a store and are named by their location, so
    that [JSON.parse(JSON.stringify(theme))] allocates and the assignments of
    the transforms update objects in place.  A run that stops with [None] is
    a run that throws, or one whose input does not have the declared shape of
    a theme (a colour mapping that is an array, a palette entry that is not a
    string). *)

Module Store.

Abbreviation loc := nat.

Inductive val :=
| VUndefined
| VNull
| VStr (s : string)
| VRef (l : loc).

#[global] Instance val_eq_dec : EqDecision val.
Proof. solve_decision. Defined.

Inductive object :=
| Obj (props : gmap string val)
| Arr (elems : list val).

(** The store: location [l] names the [l]-th object allocated. *)
Abbreviation heap := (list object).

(** The values an object holds. *)
Definition object_vals (o : object) : list val :=
  match o with
  | Obj props => (map_to_list props).*2
  | Arr elems => elems
  end.

(** A JSON text, as the tree it denotes. *)
#[local] Unset Elimination Schemes.
Inductive json :=
| JNull
| JStr (s : string)
| JArr (items : list json)
| JObj (members : list (string * json)).
#[local] Set Elimination Schemes.

(** ** Computations on the store *)

Definition js (A : Type) : Type := heap → option (A * heap).

Definition ret {A} (a : A) : js A := λ h, Some (a, h).

Definition bind {A B} (c : js A) (k : A → js B) : js B :=
  λ h, match c h with
       | Some (a, h') => k a h'
       | None => None
       end.

Definition throw {A} : js A := λ _, None.

Notation "'let*' x := c 'in' k" := (bind c (λ x, k))
  (at level 10, x name, c at level 200, k at level 200).

(** [for (const x of xs) body] *)
Fixpoint for_each {A} (xs : list A) (body : A → js unit) : js unit :=
  match xs with
  | [] => ret ()
  | x :: rest => let* _ := body x in for_each rest body
  end.

(** Running [f] on the elements of a list in order and collecting the
    results, as [xs.map(f)] does. *)
Fixpoint traverse {A B} (f : A → js B) (xs : list A) : js (list B) :=
match xs with
| [] => ret []
| x :: rest =>
    let* y := f x in
    let* ys := traverse f rest in
    ret (y :: ys)
end.

(** A literal or a library call that creates an object. *)
Definition alloc (o : object) : js val :=
  λ h, Some (VRef (length h), h ++ [o]).

(** [v[key]] on an object; reading a property of [undefined] or [null]
    throws. *)
Definition get (v : val) (key : string) : js val :=
  λ h, match v with
       | VRef l =>
           match h !! l with
           | Some (Obj props) => Some (default VUndefined (props !! key), h)
           | Some (Arr _) | None => None
           end
       | VUndefined | VNull | VStr _ => None
       end.

(** [v[key] = x] on an object. *)
Definition set (v : val) (key : string) (x : val) : js unit :=
  λ h, match v with
       | VRef l =>
           match h !! l with
           | Some (Obj props) => Some ((), <[l := Obj (<[key := x]> props)]> h)
           | Some (Arr _) | None => None
           end
       | VUndefined | VNull | VStr _ => None
       end.

(** The elements of an array, as the spread and [map] read them. *)
Definition elements (v : val) : js (list val) :=
  λ h, match v with
       | VRef l =>
           match h !! l with
           | Some (Arr elems) => Some (elems, h)
           | Some (Obj _) | None => None
           end
       | VUndefined | VNull | VStr _ => None
       end.

(** [Object.keys(v)] on an object. *)
Definition keys (v : val) : js (list string) :=
  λ h, match v with
       | VRef l =>
           match h !! l with
           | Some (Obj props) => Some (Object_keys props, h)
           | Some (Arr _) | None => None
           end
       | VUndefined | VNull | VStr _ => None
       end.

(** [Object.assign(target, source)] *)
Definition assign (target source : val) : js unit :=
  let* ks := keys source in
  for_each ks (λ key, let* x := get source key in set target key x).

(** ** The JSON round trip *)

(** [JSON.stringify]: a property holding [undefined] is left out, an
    [undefined] array element is written [null].  The fuel bounds the depth
    of the traversal. *)
Fixpoint stringify (fuel : nat) (h : heap) (v : val) : option json :=
  match fuel with
  | 0 => None
  | S fuel' =>
      match v with
      | VUndefined | VNull => Some JNull
      | VStr s => Some (JStr s)
      | VRef l =>
          match h !! l with
          | Some (Arr elems) => JArr <$> mapM (stringify fuel' h) elems
          | Some (Obj props) =>
              JObj <$> mapM (λ kv, pair kv.1 <$> stringify fuel' h kv.2)
                            (filter (λ kv, kv.2 ≠ VUndefined) (map_to_list props))
          | None => None
          end
      end
  end.

(** A structure without cycles is no deeper than the store is large; a
    traversal that needs more fuel has met a cycle, on which
    [JSON.stringify] throws.  [JSON.stringify(undefined)] is [undefined],
    which [JSON.parse] rejects. *)
Definition JSON_stringify (v : val) (h : heap) : option json :=
  match v with
  | VUndefined => None
  | _ => stringify (S (length h)) h v
  end.

(** [JSON.parse]: every array and object of the text is allocated anew,
    its parts first; of a repeated key the last member is kept. *)
Fixpoint JSON_parse (j : json) : js val :=
match j with
| JNull => ret VNull
| JStr s => ret (VStr s)
| JArr items =>
    let* vs := traverse JSON_parse items in
    alloc (Arr vs)
| JObj members =>
    let* kvs := traverse (λ kv, let* v := JSON_parse kv.2 in ret (kv.1, v)) members in
    alloc (Obj (object_literal kvs))
end.

(** [JSON.parse(JSON.stringify(theme))] *)
Definition JSON_clone (theme : val) : js val :=
  λ h, match JSON_stringify theme h with
       | Some text => JSON_parse text h
       | None => None
       end.

(** ** The two transforms *)

Definition of_jsval (v : jsval) : val :=
  match v with
  | Null => VNull
  | Str s => VStr s
  end.

(** [xs.includes(x)] *)
Definition includes (xs : list val) (x : val) : bool := bool_decide (x ∈ xs).

Section transforms.
Context `{TinyColor}.

(** Body of the loop over [soft.colors]; the property is read once. *)
Definition soft_body (bright : list val) (colors : val) (key : string) : js unit :=
  let* c := get colors key in
  if includes bright c then
    match c with
    | VStr s => set colors key (VStr (soften s))
    | VUndefined | VNull | VRef _ => throw
    end
  else ret ().

(** Callback of [soft.tokenColors.map]: the rule is updated in place and
    returned. *)
Definition soft_token (bright : list val) (value : val) : js val :=
  let* settings := get value "settings" in
  let* fg := get settings "foreground" in
  if includes bright fg then
    match fg with
    | VStr s =>
        let* _ := set settings "foreground" (VStr (soften s)) in
        ret value
    | VUndefined | VNull | VRef _ => throw
    end
  else ret value.

Definition transformSoft (theme : val) : js val :=
  let* soft := JSON_clone theme in
  let* dracula := get soft "dracula" in
  let* ansi := get dracula "ansi" in
  let* ansi_elems := elements ansi in
  let* brightOther := get dracula "brightOther" in
  let* brightOther_elems := elements brightOther in
  let bright := (ansi_elems ++ brightOther_elems)%list in
  let* colors := get soft "colors" in
  let* ks := keys colors in
  let* _ := for_each ks (soft_body bright colors) in
  let* tokenColors := get soft "tokenColors" in
  let* rules := elements tokenColors in
  let* mapped := traverse (soft_token bright) rules in
  let* mapped_array := alloc (Arr mapped) in
  let* _ := set soft "tokenColors" mapped_array in
  ret soft.

End transforms.

(** Body of the sweep over [hc.colors]. *)
Definition sweep_body (colors : val) (key : string) : js unit :=
  if bool_decide (key ∈ bgKeys)
     || JsString.endsWith key "background"
     || JsString.endsWith key "Background"
  then
    if JsString.includes key "selection" || JsString.includes key "Selection" then ret ()
    else if JsString.includes key "button" then ret ()
    else if JsString.includes key "Badge" then ret ()
    else if JsString.includes key "diffEditor" then ret ()
    else if JsString.includes key "merge" then ret ()
    else if JsString.includes key "highlight" then ret ()
    else if JsString.includes key "OverviewRuler" then ret ()
    else set colors key (VStr "#000000")
  else ret ().

Definition transformHighContrast (theme : val) : js val :=
  let* hc := JSON_clone theme in
  let* colors := get hc "colors" in
  let* ks := keys colors in
  let* _ := for_each ks (sweep_body colors) in
  let* table := alloc (Obj (of_jsval <$> overrides)) in
  let* _ := assign colors table in
  ret hc.

(** ** Reachability and snapshots *)

(** [reachable h v l]: the object at [l] is part of the structure [v]
    denotes in [h]. *)
Inductive reachable (h : heap) : val → loc → Prop :=
| reach_here l o :
    h !! l = Some o → reachable h (VRef l) l
| reach_step l o v l' :
    h !! l = Some o → v ∈ object_vals o → reachable h v l' →
    reachable h (VRef l) l'.

(** Two structures are deep-equal when they print to the same JSON text. *)
Definition snapshot (h : heap) (v : val) (text : json) : Prop :=
  ∃ fuel, stringify fuel h v = Some text.

(** ** Separation from an earlier store *)

(** [v] names no object of [h0]. *)
Definition fresh_for (h0 : heap) (v : val) : Prop :=
  match v with
  | VRef l => length h0 ≤ l
  | VUndefined | VNull | VStr _ => True
  end.

(** [h] is [h0] followed by objects that hold no reference into [h0]. *)
Definition extends (h0 h : heap) : Prop :=
  h0 `prefix_of` h ∧
  ∀ l o, h !! l = Some o → length h0 ≤ l → Forall (fresh_for h0) (object_vals o).

(** A computation that, started in an extension of [h0], ends in an
    extension of [h0] with a result satisfying [Q]. *)
Definition preserves {A} (h0 : heap) (c : js A) (Q : A → Prop) : Prop :=
  ∀ h a h', extends h0 h → c h = Some (a, h') → extends h0 h' ∧ Q a.

End Store.

(** Induction on JSON texts, with the induction hypothesis for every item
    of an array and every member of an object. *)
Section json_induction.
Import Store.
Variable P : json → Prop.
Hypothesis Hnull : P JNull.
Hypothesis Hstr : ∀ s, P (JStr s).
Hypothesis Harr : ∀ items, Forall P items → P (JArr items).
Hypothesis Hobj : ∀ members, Forall (λ kv, P kv.2) members → P (JObj members).

Fixpoint json_nested_ind (j : json) : P j :=
  match j with
  | JNull => Hnull
  | JStr s => Hstr s
  | JArr items =>
      Harr items
        ((fix items_ind (l : list json) : Forall P l :=
            match l with
            | [] => List.Forall_nil P
            | item :: rest =>
                List.Forall_cons P item rest (json_nested_ind item) (items_ind rest)
            end) items)
  | JObj members =>
      Hobj members
        ((fix members_ind (l : list (string * json)) : Forall (λ kv, P kv.2) l :=
            match l with
            | [] => List.Forall_nil _
            | (key, item) :: rest =>
                List.Forall_cons (λ kv, P kv.2) (key, item) rest
                  (json_nested_ind item) (members_ind rest)
            end) members)
  end.
End json_induction.

(** A theme in the store, for running the transforms: the JSON text of the
    sanitised example theme, with a member the [Theme] type does not declare,
    parsed into the empty store. *)
Definition example_text : Store.json :=
  Store.JObj
    [ ("name", Store.JStr "Dracula");
      ("dracula",
       Store.JObj
         [ ("base", Store.JArr [Store.JStr "#282A36"; Store.JStr "#F8F8F2";
                                Store.JStr "#44475A"]);
           ("ansi", Store.JArr [Store.JStr "#6272A4"; Store.JStr "#FF5555"]);
           ("brightOther", Store.JArr [Store.JStr "#E9F284"]);
           ("other", Store.JArr [Store.JStr "#FF79C6"]) ]);
      ("colors",
       Store.JObj
         [ ("editor.background", Store.JStr "#282A36");
           ("button.background", Store.JStr "#6272A4");
           ("statusBar.foreground", Store.JStr "#FF5555");
           ("editor.findMatchBackground", Store.JStr "#FF555580");
           ("minimap.background", Store.JStr "#44475A") ]);
      ("tokenColors",
       Store.JArr
         [ Store.JObj
             [ ("name", Store.JStr "Errors");
               ("scope", Store.JArr [Store.JStr "invalid"]);
               ("settings",
                Store.JObj [ ("foreground", Store.JStr "#FF5555");
                             ("fontStyle", Store.JStr "italic") ]) ];
           Store.JObj
             [ ("scope", Store.JArr [Store.JStr "comment"]);
               ("settings",
                Store.JObj [ ("foreground", Store.JStr "#FF79C6") ]) ] ]) ].

Definition example_store : Store.val * Store.heap :=
  default (Store.VNull, []) (Store.JSON_parse example_text []).

(** * Themes in the store and in JSON texts

    The link between the two models: how a JSON text reads as a theme, and
    when a value of the store denotes a theme.  Members the [Theme] type does
    not declare are ignored by both. *)

Section theme_views.
Import Store.

(** The member [JSON.parse] keeps for a key. *)
Definition member (members : list (string * json)) (key : string) : option json :=
  object_literal members !! key.

Definition decode_string (j : json) : option string :=
  match j with
  | JStr s => Some s
  | JNull | JArr _ | JObj _ => None
  end.

Definition decode_strings (j : json) : option (list string) :=
  match j with
  | JArr items => mapM decode_string items
  | JNull | JStr _ | JObj _ => None
  end.

(** An optional string setting: absent, or a string. *)
Definition decode_optional (o : option json) : option (option string) :=
  match o with
  | None => Some None
  | Some (JStr s) => Some (Some s)
  | Some (JNull | JArr _ | JObj _) => None
  end.

Definition decode_color (j : json) : option jsval :=
  match j with
  | JNull => Some Null
  | JStr s => Some (Str s)
  | JArr _ | JObj _ => None
  end.

Definition decode_colors (j : json) : option (gmap string jsval) :=
  match j with
  | JObj members =>
      let m := object_literal members in
      if decide (map_Forall (λ _ c, is_Some (decode_color c)) m)
      then Some (omap decode_color m)
      else None
  | JNull | JStr _ | JArr _ => None
  end.

Definition decode_settings (j : json) : option Settings :=
  match j with
  | JObj members =>
      fg ← decode_optional (member members "foreground");
      bg ← decode_optional (member members "background");
      fs ← decode_optional (member members "fontStyle");
      Some {| foreground := fg; background := bg; fontStyle := fs |}
  | JNull | JStr _ | JArr _ => None
  end.

Definition decode_token (j : json) : option TokenColor :=
  match j with
  | JObj members =>
      n ← decode_optional (member members "name");
      sc ← member members "scope" ≫= decode_strings;
      st ← member members "settings" ≫= decode_settings;
      Some {| name := n; scope := sc; settings := st |}
  | JNull | JStr _ | JArr _ => None
  end.

Definition decode_tokens (j : json) : option (list TokenColor) :=
  match j with
  | JArr items => mapM decode_token items
  | JNull | JStr _ | JObj _ => None
  end.

Definition decode_dracula (j : json) : option Dracula :=
  match j with
  | JObj members =>
      b ← member members "base" ≫= decode_strings;
      a ← member members "ansi" ≫= decode_strings;
      bo ← member members "brightOther" ≫= decode_strings;
      o ← member members "other" ≫= decode_strings;
      Some {| base := b; ansi := a; brightOther := bo; other := o |}
  | JNull | JStr _ | JArr _ => None
  end.

Definition decode_theme (j : json) : option Theme :=
  match j with
  | JObj members =>
      d ← member members "dracula" ≫= decode_dracula;
      c ← member members "colors" ≫= decode_colors;
      tk ← member members "tokenColors" ≫= decode_tokens;
      Some {| dracula := d; colors := c; tokenColors := tk |}
  | JNull | JStr _ | JArr _ => None
  end.

(** [reads_as h v t]: [JSON.stringify(v)] returns a text that reads as the
    theme [t]. *)
Definition reads_as (h : heap) (v : val) (t : Theme) : Prop :=
  ∃ text, JSON_stringify v h = Some text ∧ decode_theme text = Some t.

(** ** Values of the store that denote a theme *)

(** The property [key] of an object, as a read returns it. *)
Definition prop (props : gmap string val) (key : string) : val :=
  default VUndefined (props !! key).

Definition optional_val (o : option string) : val :=
  match o with
  | Some s => VStr s
  | None => VUndefined
  end.

Definition strings_at (h : heap) (v : val) (ss : list string) : Prop :=
  ∃ l, v = VRef l ∧ h !! l = Some (Arr (VStr <$> ss)).

Definition colors_at (h : heap) (v : val) (m : gmap string jsval) : Prop :=
  ∃ l, v = VRef l ∧ h !! l = Some (Obj (of_jsval <$> m)).

Definition settings_props (props : gmap string val) (s : Settings) : Prop :=
  prop props "foreground" = optional_val (foreground s) ∧
  prop props "background" = optional_val (background s) ∧
  prop props "fontStyle" = optional_val (fontStyle s).

Definition settings_at (h : heap) (v : val) (s : Settings) : Prop :=
  ∃ l props, v = VRef l ∧ h !! l = Some (Obj props) ∧ settings_props props s.

Definition token_at (h : heap) (v : val) (tk : TokenColor) : Prop :=
  ∃ l props, v = VRef l ∧ h !! l = Some (Obj props) ∧
    prop props "name" = optional_val (name tk) ∧
    strings_at h (prop props "scope") (scope tk) ∧
    settings_at h (prop props "settings") (settings tk).

Definition tokens_at (h : heap) (v : val) (tks : list TokenColor) : Prop :=
  ∃ l vs, v = VRef l ∧ h !! l = Some (Arr vs) ∧ Forall2 (token_at h) vs tks.

Definition dracula_at (h : heap) (v : val) (d : Dracula) : Prop :=
  ∃ l props, v = VRef l ∧ h !! l = Some (Obj props) ∧
    strings_at h (prop props "base") (base d) ∧
    strings_at h (prop props "ansi") (ansi d) ∧
    strings_at h (prop props "brightOther") (brightOther d) ∧
    strings_at h (prop props "other") (other d).

Definition theme_at (h : heap) (v : val) (t : Theme) : Prop :=
  ∃ l props, v = VRef l ∧ h !! l = Some (Obj props) ∧
    dracula_at h (prop props "dracula") (dracula t) ∧
    colors_at h (prop props "colors") (colors t) ∧
    tokens_at h (prop props "tokenColors") (tokenColors t).

(** ** The layout of a parsed text *)

(** The number of objects and arrays of a text. *)
Fixpoint span (j : json) : nat :=
match j with
| JNull | JStr _ => 0
| JArr items => S (sum_list (span <$> items))
| JObj members => S (sum_list ((λ kv, span kv.2) <$> members))
end.

(** [tree h lo hi v j]: in [h], the value [v] denotes the text [j], by
    objects that occupy the locations from [lo] up to [hi], each part before
    the whole and the parts of an object one after the other. *)
Inductive tree (h : heap) : nat → nat → val → json → Prop :=
| tree_null lo : tree h lo lo VNull JNull
| tree_str lo s : tree h lo lo (VStr s) (JStr s)
| tree_arr lo l vs items :
    trees h lo l vs items → h !! l = Some (Arr vs) →
    tree h lo (S l) (VRef l) (JArr items)
| tree_obj lo l kvs members :
    member_trees h lo l kvs members → h !! l = Some (Obj (object_literal kvs)) →
    tree h lo (S l) (VRef l) (JObj members)
with trees (h : heap) : nat → nat → list val → list json → Prop :=
| trees_nil lo : trees h lo lo [] []
| trees_cons lo mid hi v j vs js :
    tree h lo mid v j → trees h mid hi vs js →
    trees h lo hi (v :: vs) (j :: js)
with member_trees (h : heap) : nat → nat → list (string * val) → list (string * json) → Prop :=
| member_trees_nil lo : member_trees h lo lo [] []
| member_trees_cons lo mid hi key v j kvs members :
    tree h lo mid v j → member_trees h mid hi kvs members →
    member_trees h lo hi ((key, v) :: kvs) ((key, j) :: members).

(** What [JSON.parse] returns: it always returns, the store it started in
    is kept, and the value denotes the text by the objects it allocated. *)
Definition parsed (j : json) : Prop :=
  ∀ h, ∃ v h', JSON_parse j h = Some (v, h') ∧ h `prefix_of` h' ∧
               tree h' (length h) (length h') v j.

(** The members kept for each key by the two object literals of a parsed
    object, the values' and the texts': a key has both or none, a value
    denotes its text by objects between [lo] and [hi], and the objects of two
    keys are apart. *)
Definition members_related (h : heap) (lo hi : nat)
    (ov : gmap string val) (oj : gmap string json) : Prop :=
  (∀ k, oj !! k = None → ov !! k = None) ∧
  (∀ k j, oj !! k = Some j →
     ∃ v a b, ov !! k = Some v ∧ tree h a b v j ∧ lo ≤ a ∧ b ≤ hi) ∧
  (∀ k1 k2 j1 j2, k1 ≠ k2 → oj !! k1 = Some j1 → oj !! k2 = Some j2 →
     ∃ v1 a1 b1 v2 a2 b2,
       ov !! k1 = Some v1 ∧ tree h a1 b1 v1 j1 ∧ lo ≤ a1 ∧ b1 ≤ hi ∧
       ov !! k2 = Some v2 ∧ tree h a2 b2 v2 j2 ∧ lo ≤ a2 ∧ b2 ≤ hi ∧
       (b1 ≤ a2 ∨ b2 ≤ a1)).

(** A token colour rule laid out between [lo] and [hi]: the rule, its
    settings and its scopes are three objects of that interval. *)
Definition token_in (h : heap) (lo hi : nat) (v : val) (tk : TokenColor) : Prop :=
  ∃ l props ls sprops lsc,
    v = VRef l ∧ hi = S l ∧ lo ≤ ls < l ∧ lo ≤ lsc < l ∧ ls ≠ lsc ∧
    h !! l = Some (Obj props) ∧
    prop props "name" = optional_val (name tk) ∧
    prop props "settings" = VRef ls ∧
    h !! ls = Some (Obj sprops) ∧ settings_props sprops (settings tk) ∧
    prop props "scope" = VRef lsc ∧
    h !! lsc = Some (Arr (VStr <$> scope tk)).

Inductive tokens_in (h : heap) : nat → nat → list val → list TokenColor → Prop :=
| tokens_in_nil lo : tokens_in h lo lo [] []
| tokens_in_cons lo mid hi v tk vs tks :
    lo ≤ mid → token_in h lo mid v tk → tokens_in h mid hi vs tks →
    tokens_in h lo hi (v :: vs) (tk :: tks).

(** A theme laid out from [lo] on, as parsing leaves it: the palette, the
    colour mapping and the token colour rules are apart from one another, and
    all precede the theme object. *)
Definition theme_in (h : heap) (lo : nat) (v : val) (t : Theme) : Prop :=
  ∃ r rprops vd jd ad bd lc ac lt vts at_,
    v = VRef r ∧ h !! r = Some (Obj rprops) ∧
    prop rprops "dracula" = vd ∧
    tree h ad bd vd jd ∧ decode_dracula jd = Some (dracula t) ∧
    prop rprops "colors" = VRef lc ∧
    h !! lc = Some (Obj (of_jsval <$> colors t)) ∧
    prop rprops "tokenColors" = VRef lt ∧
    h !! lt = Some (Arr vts) ∧ tokens_in h at_ lt vts (tokenColors t) ∧
    lo ≤ ad ∧ bd ≤ r ∧ lo ≤ ac ∧ ac ≤ lc ∧ lc < r ∧ lo ≤ at_ ∧ lt < r ∧
    (bd ≤ ac ∨ S lc ≤ ad) ∧ (bd ≤ at_ ∨ S lt ≤ ad) ∧ (S lc ≤ at_ ∨ S lt ≤ ac).

Definition is_node (j : json) : Prop :=
  match j with
  | JArr _ | JObj _ => True
  | JNull | JStr _ => False
  end.

End theme_views.

Scheme tree_mut_ind := Minimality for tree Sort Prop
  with trees_mut_ind := Minimality for trees Sort Prop
  with member_trees_mut_ind := Minimality for member_trees Sort Prop.

Combined Scheme tree_all_ind from tree_mut_ind, trees_mut_ind, member_trees_mut_ind.

(** What [Object.assign] with the override table does to one key. *)
Definition override_step (key : string) (m : gmap string jsval) : gmap string jsval :=
  match overrides !! key with
  | Some x => <[key := x]> m
  | None => m
  end.


(** A theme with an empty bright palette. *)
Definition example_plain : Theme :=
  {| dracula := {| base := ["#282A36"]; ansi := []; brightOther := []; other := [] |};
     colors := object_literal [ ("editor.background", Str "#282A36") ];
     tokenColors := example_tokens |}.

(** A colour value that is a string with at least one character. *)
Definition nonempty_string (v : jsval) : bool :=
  match v with
  | Str s => negb (bool_decide (s = ""))
  | Null => false
  end.

(** * The generator over the object store

    What [module.exports] does with the object [load] returned: the delete
    loop works on that object itself, and both transforms are then run on
    it. *)
Module Generator.
Import Store.

(** [!v] is [false]. *)
Definition truthy (v : val) : bool :=
  match v with
  | VUndefined | VNull => false
  | VStr s => negb (bool_decide (s = ""))
  | VRef _ => true
  end.

(** [delete v[key]] on an object. *)
Definition delete_property (v : val) (key : string) : js unit :=
  λ h, match v with
       | VRef l =>
           match h !! l with
           | Some (Obj props) => Some ((), <[l := Obj (delete key props)]> h)
           | Some (Arr _) | None => None
           end
       | VUndefined | VNull | VStr _ => None
       end.

(** Body of the delete loop; [base.colors] is read anew at each use. *)
Definition sanitize_body (base : val) (key : string) : js unit :=
  let* colors := get base "colors" in
  let* c := get colors key in
  if negb (truthy c) then
    let* colors := get base "colors" in
    delete_property colors key
  else ret ().

Definition sanitize (base : val) : js unit :=
  let* colors := get base "colors" in
  let* ks := keys colors in
  for_each ks (sanitize_body base).

(** The body of [module.exports] after [load]. *)
Definition generate `{TinyColor} (base : val) : js (val * val * val) :=
  let* _ := sanitize base in
  let* soft := transformSoft base in
  let* hc := transformHighContrast base in
  ret (base, soft, hc).

End Generator.

(** The example theme as loaded, with its [null] and its empty colour, in
    the store. *)
Definition example_loaded_text : Store.json :=
  Store.JObj
    [ ("dracula",
       Store.JObj
         [ ("base", Store.JArr [Store.JStr "#282A36"; Store.JStr "#F8F8F2";
                                Store.JStr "#44475A"]);
           ("ansi", Store.JArr [Store.JStr "#6272A4"; Store.JStr "#FF5555"]);
           ("brightOther", Store.JArr [Store.JStr "#E9F284"]);
           ("other", Store.JArr [Store.JStr "#FF79C6"]) ]);
      ("colors",
       Store.JObj
         [ ("editor.background", Store.JStr "#282A36");
           ("button.background", Store.JStr "#6272A4");
           ("statusBar.foreground", Store.JStr "#FF5555");
           ("editor.findMatchBackground", Store.JStr "#FF555580");
           ("minimap.background", Store.JStr "#44475A");
           ("tab.hoverBackground", Store.JNull);
           ("editorGroup.emptyBackground", Store.JStr "") ]);
      ("tokenColors",
       Store.JArr
         [ Store.JObj
             [ ("name", Store.JStr "Errors");
               ("scope", Store.JArr [Store.JStr "invalid"]);
               ("settings",
                Store.JObj [ ("foreground", Store.JStr "#FF5555");
                             ("fontStyle", Store.JStr "italic") ]) ];
           Store.JObj
             [ ("scope", Store.JArr [Store.JStr "comment"]);
               ("settings",
                Store.JObj [ ("foreground", Store.JStr "#FF79C6") ]) ] ]) ].

Definition example_loaded_store : Store.val * Store.heap :=
  default (Store.VNull, []) (Store.JSON_parse example_loaded_text []).

(** A theme file with a colour mapping and nothing else. *)
Definition example_colors_only_text : Store.json :=
  Store.JObj
    [ ("colors",
       Store.JObj
         [ ("editor.background", Store.JStr "#282A36");
           ("button.background", Store.JStr "#6272A4") ]) ].

Definition example_colors_only_store : Store.val * Store.heap :=
  default (Store.VNull, []) (Store.JSON_parse example_colors_only_text []).

(** A text whose parsed value has nothing to read a property from under
    [key]: it is no object, or it has no such member, or the member is
    [null]. *)
Definition lacks (text : Store.json) (key : string) : Prop :=
  match text with
  | Store.JObj members =>
      member members key = None ∨ member members key = Some Store.JNull
  | Store.JNull | Store.JStr _ | Store.JArr _ => True
  end.

(** What the delete loop does to one key of an object. *)
Definition delete_falsy (key : string) (props : gmap string Store.val) :
    gmap string Store.val :=
  if Generator.truthy (prop props key) then props else delete key props.

(** * Stores without dangling references *)

(** [v] names no object at or beyond [n]. *)
Definition valid (n : nat) (v : Store.val) : Prop :=
  match v with
  | Store.VRef l => l < n
  | Store.VUndefined | Store.VNull | Store.VStr _ => True
  end.

#[global] Instance valid_dec n v : Decision (valid n v).
Proof. destruct v; simpl; apply _. Defined.

(** No object of [h] holds a reference at or beyond [n]. *)
Definition closed_below (n : nat) (h : Store.heap) : Prop :=
  Forall (λ o, Forall (valid n) (Store.object_vals o)) h.

(** Every reference held in [h] names an object of [h]. *)
Definition closed (h : Store.heap) : Prop := closed_below (length h) h.

(** [keeps N c P Q]: the computation [c] never shrinks the store; started
    under [P] in a store without references beyond [N], and ending in a
    store no larger than [N], it ends in a store without references beyond
    [N], with a result that satisfies [Q]. *)
Definition keeps {A} (N : nat) (c : Store.js A) (P : Prop) (Q : A → Prop) : Prop :=
  ∀ h a h', c h = Some (a, h') →
    length h ≤ length h' ∧
    (P → length h' ≤ N → closed_below N h → closed_below N h' ∧ Q a).

(** * Properties of the string predicates *)

Lemma startsWith_spec (s p : string) :
  JsString.startsWith s p = true ↔ ∃ rest, s = p +:+ rest.
Proof.
  revert s. induction p as [|a p IH]; intros s; simpl.
  - split; [intros _; by exists s | done].
  - destruct s as [|b s].
    + split; [done | intros [rest Hrest]; discriminate].
    + rewrite andb_true_iff, bool_decide_eq_true, IH. split.
      * intros [-> [rest ->]]. by exists rest.
      * intros [rest Hrest]. injection Hrest as -> ->. eauto.
Qed.

Lemma includes_spec (s sub : string) :
  JsString.includes s sub = true ↔ ∃ before after, s = before +:+ sub +:+ after.
Proof.
  induction s as [|b s IH]; simpl; rewrite orb_true_iff.
  - rewrite startsWith_spec. split.
    + intros [[rest Hrest] | ?]; [|done]. by exists "", rest.
    + intros ([|c before] & after & Heq); [|discriminate]. left. by exists after.
  - rewrite startsWith_spec, IH. split.
    + intros [[rest Hrest] | (before & after & ->)].
      * by exists "", rest.
      * by exists (String b before), after.
    + intros ([|c before] & after & Heq).
      * left. by exists after.
      * right. injection Heq as -> ->. by exists before, after.
Qed.

(** * Loops over the keys of an object *)

Section object_lemmas.
Context {V : Type}.
Implicit Types (o : gmap string V) (k key : string).

Lemma Object_keys_NoDup o : NoDup (Object_keys o).
Proof. apply NoDup_fst_map_to_list. Qed.

Lemma elem_of_Object_keys o k : k ∈ Object_keys o ↔ is_Some (o !! k).
Proof.
  unfold Object_keys. rewrite list_elem_of_fmap. split.
  - intros ([k' v] & -> & Hin). apply elem_of_map_to_list in Hin. eauto.
  - intros [v Hv]. exists (k, v). split; [done|]. by apply elem_of_map_to_list.
Qed.

(** A loop whose body, run at [key], rewrites the property [key] from its
    current value alone and leaves every other property as it is, computes
    the pointwise image of the object on the keys it visits. *)
Lemma for_of_local (body : string → gmap string V → gmap string V)
    (f : string → option V → option V) :
  (∀ key o k, body key o !! k = if decide (k = key) then f key (o !! key) else o !! k) →
  ∀ keys o k, NoDup keys →
    for_of keys body o !! k = if decide (k ∈ keys) then f k (o !! k) else o !! k.
Proof.
  intros Hbody keys. unfold for_of.
  induction keys as [|x keys IH]; intros o k Hnd; simpl.
  - done.
  - apply NoDup_cons in Hnd as [Hx Hnd]. rewrite IH by done.
    rewrite Hbody. destruct (decide (k = x)) as [->|Hne].
    + rewrite decide_False by done. rewrite decide_True by left. done.
    + destruct (decide (k ∈ keys)) as [Hin|Hin].
      * rewrite decide_True by (by right). done.
      * rewrite decide_False; [done|]. intros [?|?]%elem_of_cons; done.
Qed.

Lemma for_of_own_keys (body : string → gmap string V → gmap string V)
    (f : string → option V → option V) :
  (∀ key o k, body key o !! k = if decide (k = key) then f key (o !! key) else o !! k) →
  ∀ o k, for_of (Object_keys o) body o !! k =
         match o !! k with Some v => f k (Some v) | None => None end.
Proof.
  intros Hbody o k.
  rewrite (for_of_local body f Hbody) by apply Object_keys_NoDup.
  case_decide as Hin.
  - apply elem_of_Object_keys in Hin as [v Hv]. by rewrite Hv.
  - destruct (o !! k) as [v|] eqn:Hv; [|done].
    exfalso. apply Hin, elem_of_Object_keys. eauto.
Qed.

Lemma for_of_insert_lookup (l : list (string * V)) o k :
  for_of l (λ kv acc, <[kv.1 := kv.2]> acc) o !! k =
  match last (filter (λ kv, kv.1 = k) l) with
  | Some kv => Some kv.2
  | None => o !! k
  end.
Proof.
  unfold for_of. revert o. induction l as [|[k0 v0] l IH]; intros o; simpl; [done|].
  rewrite IH. rewrite filter_cons. simpl. case_decide as Hk.
  - subst k0. destruct (filter _ l) as [|kv l'] eqn:Hf; simpl.
    + by rewrite lookup_insert_eq.
    + destruct (last (kv :: l')) eqn:Hl; [done|]. by apply last_None in Hl.
  - destruct (last _); [done|]. by rewrite lookup_insert_ne.
Qed.

(** [Object.assign] is the union in which the source wins. *)
Lemma Object_assign_union (target source : gmap string V) :
  Object_assign target source = source ∪ target.
Proof.
  apply map_eq. intros k. unfold Object_assign.
  rewrite for_of_insert_lookup, lookup_union.
  destruct (source !! k) as [v|] eqn:Hs.
  - assert (Hin : (k, v) ∈ map_to_list source) by by apply elem_of_map_to_list.
    destruct (last _) as [[k' v']|] eqn:Hl.
    + apply last_Some_elem_of, list_elem_of_filter in Hl as [Hk Hin'].
      simpl in Hk. subst k'. apply elem_of_map_to_list in Hin'.
      simpl. rewrite Hs in Hin'. injection Hin' as ->.
      by destruct (target !! k).
    + apply last_None in Hl.
      assert (Hin2 : (k, v) ∈ filter (λ kv : string * V, kv.1 = k) (map_to_list source))
        by by apply list_elem_of_filter.
      rewrite Hl in Hin2. by apply elem_of_nil in Hin2.
  - destruct (last _) as [[k' v']|] eqn:Hl.
    + apply last_Some_elem_of, list_elem_of_filter in Hl as [Hk Hin'].
      simpl in Hk. subst k'. apply elem_of_map_to_list in Hin'. congruence.
    + by destruct (target !! k).
Qed.

Lemma Object_assign_lookup (target source : gmap string V) k :
  Object_assign target source !! k =
  match source !! k with Some v => Some v | None => target !! k end.
Proof.
  rewrite Object_assign_union, lookup_union.
  destruct (source !! k), (target !! k); done.
Qed.

End object_lemmas.

Lemma substring_0_length (s : string) : String.substring 0 (String.length s) s = s.
Proof. induction s as [|c s IH]; simpl; [done | by rewrite IH]. Qed.

Lemma substring_app_suffix (p suffix : string) :
  String.substring (String.length p) (String.length suffix) (p +:+ suffix) = suffix.
Proof. induction p as [|c p IH]; [apply substring_0_length | exact IH]. Qed.

Lemma substring_split (s : string) (i m : nat) :
  i + m = String.length s →
  ∃ p, s = p +:+ String.substring i m s ∧ String.length p = i.
Proof.
  revert i. induction s as [|c s IH]; intros [|i] Hlen; simpl in *; try lia.
  - exists "". split; [|done]. by assert (m = 0) as -> by lia.
  - exists "". subst m. split; [|done]. simpl. by rewrite substring_0_length.
  - destruct (IH i) as (p & Hp & Hlp); [lia|].
    exists (String c p). split; [exact (f_equal (String c) Hp) | simpl; by rewrite Hlp].
Qed.

Lemma string_length_app (p q : string) :
  String.length (p +:+ q) = String.length p + String.length q.
Proof. induction p as [|c p IH]; [done | exact (f_equal S IH)]. Qed.

Lemma endsWith_spec (s suffix : string) :
  JsString.endsWith s suffix = true ↔ ∃ p, s = p +:+ suffix.
Proof.
  unfold JsString.endsWith.
  rewrite andb_true_iff, !bool_decide_eq_true. split.
  - intros [Hle Hsub].
    destruct (substring_split s (String.length s - String.length suffix)
                (String.length suffix)) as (p & Hp & _); [lia|].
    exists p. by rewrite Hsub in Hp.
  - intros [p ->]. rewrite string_length_app. split; [lia|].
    replace (String.length p + String.length suffix - String.length suffix)
      with (String.length p) by lia.
    apply substring_app_suffix.
Qed.

(** * The three loop bodies, as pointwise rewrites *)

Lemma sanitize_body_lookup key (o : gmap string jsval) k :
  sanitize_body key o !! k =
  if decide (k = key) then sanitize_value (o !! key) else o !! k.
Proof.
  unfold sanitize_body, sanitize_value.
  destruct (truthy (o !! key)) eqn:Ht; simpl; case_decide as Hk; subst; try done.
  - apply lookup_delete_eq.
  - by apply lookup_delete_ne.
Qed.

Lemma sanitize_colors_lookup (o : gmap string jsval) k :
  sanitize_colors o !! k = sanitize_value (o !! k).
Proof.
  unfold sanitize_colors.
  rewrite (for_of_own_keys sanitize_body (λ _, sanitize_value))
    by apply sanitize_body_lookup.
  by destruct (o !! k).
Qed.

Section soft_lemmas.
Context `{TinyColor}.

Lemma soft_body_lookup bright key (o : gmap string jsval) k :
  soft_body bright key o !! k =
  if decide (k = key) then soft_value bright (o !! key) else o !! k.
Proof.
  unfold soft_body, soft_value.
  destruct (o !! key) as [[|c]|] eqn:Hv; try (case_decide; by subst).
  case_bool_decide; case_decide; subst; try done.
  - apply lookup_insert_eq.
  - by apply lookup_insert_ne.
Qed.

Lemma transformSoft_colors_lookup theme k :
  colors (transformSoft theme) !! k =
  soft_value (brightColors theme) (colors theme !! k).
Proof.
  unfold transformSoft, JSON_clone. simpl.
  set (bright := brightColors theme).
  rewrite (for_of_own_keys (soft_body bright) (λ _, soft_value bright))
    by apply soft_body_lookup.
  by destruct (colors theme !! k).
Qed.

End soft_lemmas.

Lemma sweep_body_lookup key (o : gmap string jsval) k :
  sweep_body key o !! k =
  if decide (k = key) then sweep_value key (o !! key) else o !! k.
Proof.
  unfold sweep_body, sweep_value, background_role, exempted.
  destruct (_ || _ || _); simpl; [|by destruct (decide (k = key)) as [->|]].
  repeat (destruct (JsString.includes key _); simpl;
          [by destruct (decide (k = key)) as [->|] |]).
  destruct (decide (k = key)) as [->|];
    [apply lookup_insert_eq | by apply lookup_insert_ne].
Qed.

Lemma sweep_lookup (o : gmap string jsval) k :
  sweep o !! k =
  match o !! k with Some v => sweep_value k (Some v) | None => None end.
Proof. unfold sweep. by rewrite (for_of_own_keys sweep_body sweep_value) by apply sweep_body_lookup. Qed.

(** * The override table *)

Lemma overrides_literal_NoDup : NoDup overrides_literal.*1.
Proof. apply (bool_decide_unpack _). vm_compute. reflexivity. Qed.

Lemma for_of_insert_notin {V} (l : list (string * V)) (o : gmap string V) k :
  k ∉ l.*1 → for_of l (λ kv acc, <[kv.1 := kv.2]> acc) o !! k = o !! k.
Proof.
  unfold for_of. revert o. induction l as [|[k0 v0] l IH]; intros o Hk; simpl; [done|].
  simpl in Hk. apply not_elem_of_cons in Hk as [Hne Hk].
  rewrite IH by done. by apply lookup_insert_ne.
Qed.

Lemma for_of_insert_elem_of {V} (l : list (string * V)) (o : gmap string V) k v :
  NoDup l.*1 → (k, v) ∈ l →
  for_of l (λ kv acc, <[kv.1 := kv.2]> acc) o !! k = Some v.
Proof.
  revert o. induction l as [|[k0 v0] l IH]; intros o Hnd Hin.
  - by apply elem_of_nil in Hin.
  - simpl in Hnd. apply NoDup_cons in Hnd as [Hk0 Hnd].
    apply elem_of_cons in Hin as [Heq|Hin].
    + injection Heq as <- <-.
      change (for_of l (λ kv acc, <[kv.1 := kv.2]> acc) (<[k:=v]> o) !! k = Some v).
      rewrite for_of_insert_notin by done. apply lookup_insert_eq.
    + apply (IH (<[k0:=v0]> o)); done.
Qed.

(** Without repeated keys, an object literal holds each entry it lists. *)
Lemma object_literal_lookup {V} (l : list (string * V)) k v :
  NoDup l.*1 → (k, v) ∈ l → object_literal l !! k = Some v.
Proof. apply for_of_insert_elem_of. Qed.

Lemma object_literal_lookup_None {V} (l : list (string * V)) k :
  k ∉ l.*1 → object_literal l !! k = None.
Proof. intros Hk. unfold object_literal. by rewrite for_of_insert_notin. Qed.

Lemma overrides_lookup key v :
  (key, v) ∈ overrides_literal → overrides !! key = Some v.
Proof. apply object_literal_lookup, overrides_literal_NoDup. Qed.

Lemma transformHighContrast_colors_lookup theme key :
  colors (transformHighContrast theme) !! key =
  match overrides !! key with
  | Some v => Some v
  | None => sweep (colors theme) !! key
  end.
Proof. unfold transformHighContrast, JSON_clone. cbn [colors]. apply Object_assign_lookup. Qed.

Lemma exempted_false (key : string) :
  exempted key = false ↔
  ∀ sub, sub ∈ exemption_substrings → JsString.includes key sub = false.
Proof.
  unfold exempted, exemption_substrings. split.
  - intros Hex sub Hin. repeat (apply orb_false_iff in Hex as [Hex ?]).
    repeat (apply elem_of_cons in Hin as [->|Hin]; [done|]).
    by apply elem_of_nil in Hin.
  - intros Hall. repeat (apply orb_false_iff; split); apply Hall;
      repeat first [ by left | right ].
Qed.

Lemma background_role_true (key : string) :
  background_role key = true ↔
  key ∈ bgKeys ∨ (∃ p, key = p +:+ "background") ∨ (∃ p, key = p +:+ "Background").
Proof.
  unfold background_role.
  rewrite !orb_true_iff, bool_decide_eq_true, !endsWith_spec. tauto.
Qed.

Lemma bare_hex_length (s : string) : bare_hex s = true → String.length s = 7.
Proof.
  destruct s as [|a digits]; simpl; [done|].
  destruct (Ascii.ascii_dec a "#") as [->|Hne].
  - intros [Hlen _]%andb_true_iff. apply bool_decide_eq_true in Hlen. by rewrite Hlen.
  - destruct a as [[] [] [] [] [] [] [] []]; done.
Qed.

(** * The store: a small logic of separation from the input *)


Section store_logic.
Import Store.
Implicit Types (h : heap) (v : val) (l : loc).

Lemma bind_Some {A B} (c : js A) (k : A → js B) h b h'' :
  bind c k h = Some (b, h'') ↔ ∃ a h', c h = Some (a, h') ∧ k a h' = Some (b, h'').
Proof.
  unfold bind. destruct (c h) as [[a h']|]; split.
  - eauto.
  - by intros (? & ? & [= <- <-] & ?).
  - done.
  - by intros (? & ? & ? & ?).
Qed.

Lemma extends_refl h0 : extends h0 h0.
Proof. split; [done|]. intros l o Hl Hle. apply lookup_lt_Some in Hl. lia. Qed.

Lemma extends_length h0 h : extends h0 h → length h0 ≤ length h.
Proof. intros [Hpre _]. by apply prefix_length. Qed.

Lemma preserves_ret {A} h0 (a : A) (Q : A → Prop) : Q a → preserves h0 (ret a) Q.
Proof. intros HQ h a' h' Hext [= <- <-]. done. Qed.

Lemma preserves_throw {A} h0 (Q : A → Prop) : preserves h0 throw Q.
Proof. by intros h a h' _ ?. Qed.

Lemma preserves_bind {A B} h0 (c : js A) (k : A → js B) (P : A → Prop) (Q : B → Prop) :
  preserves h0 c P → (∀ a, P a → preserves h0 (k a) Q) → preserves h0 (bind c k) Q.
Proof.
  intros Hc Hk h b h'' Hext (a & h' & Hrun & Hcont)%bind_Some.
  destruct (Hc h a h' Hext Hrun) as [Hext' HP]. by eapply Hk.
Qed.

Lemma preserves_weaken {A} h0 (c : js A) (P Q : A → Prop) :
  preserves h0 c P → (∀ a, P a → Q a) → preserves h0 c Q.
Proof. intros Hc HPQ h a h' Hext Hrun. destruct (Hc h a h' Hext Hrun). eauto. Qed.

Lemma preserves_alloc h0 (o : object) :
  Forall (fresh_for h0) (object_vals o) → preserves h0 (alloc o) (fresh_for h0).
Proof.
  intros Ho h a h' Hext [= <- <-]. split; [|by apply extends_length].
  destruct Hext as [Hpre Hclosed]. split; [by apply prefix_app_r|].
  intros l o' Hl Hle. apply lookup_app_Some in Hl as [Hl | [_ Hl]].
  - by eapply Hclosed.
  - apply list_lookup_singleton_Some in Hl as [_ <-]. done.
Qed.

Lemma elem_of_props_vals (props : gmap string val) key v :
  props !! key = Some v → v ∈ object_vals (Obj props).
Proof.
  intros Hv. simpl. apply list_elem_of_fmap. exists (key, v).
  split; [done|]. by apply elem_of_map_to_list.
Qed.

Lemma elem_of_insert_vals (props : gmap string val) key x v :
  v ∈ object_vals (Obj (<[key := x]> props)) → v = x ∨ v ∈ object_vals (Obj props).
Proof.
  simpl. intros ([k' v'] & -> & Hin)%list_elem_of_fmap.
  apply elem_of_map_to_list in Hin. simpl.
  destruct (decide (k' = key)) as [->|Hne].
  - rewrite lookup_insert_eq in Hin. left. congruence.
  - rewrite lookup_insert_ne in Hin by done. right. by eapply elem_of_props_vals.
Qed.

Lemma preserves_get h0 v key :
  fresh_for h0 v → preserves h0 (get v key) (fresh_for h0).
Proof.
  intros Hv h a h' Hext Hrun. unfold get in Hrun.
  destruct v as [| | |l]; try done.
  destruct (h !! l) as [[props|]|] eqn:Hl; try done.
  injection Hrun as <- <-. split; [done|].
  destruct (props !! key) as [x|] eqn:Hx; [|done]. simpl.
  destruct Hext as [_ Hclosed].
  eapply Forall_forall; [by eapply Hclosed|]. by eapply elem_of_props_vals.
Qed.

Lemma extends_insert h0 h l (o : object) :
  extends h0 h → length h0 ≤ l → Forall (fresh_for h0) (object_vals o) →
  extends h0 (<[l := o]> h).
Proof.
  intros [[t ->] Hclosed] Hle Ho. split.
  - exists (<[l - length h0 := o]> t). by rewrite insert_app_r_alt.
  - intros l' o' Hl' Hle'. destruct (decide (l' = l)) as [->|Hne].
    + destruct (decide (l < length (h0 ++ t))) as [Hlt|Hge].
      * rewrite list_lookup_insert_eq in Hl' by done. by injection Hl' as <-.
      * rewrite list_insert_ge in Hl' by lia. by eapply Hclosed.
    + rewrite list_lookup_insert_ne in Hl' by done. by eapply Hclosed.
Qed.

Lemma preserves_set h0 v key x :
  fresh_for h0 v → fresh_for h0 x → preserves h0 (set v key x) (λ _, True).
Proof.
  intros Hv Hx h a h' Hext Hrun. unfold set in Hrun.
  destruct v as [| | |l]; try done.
  destruct (h !! l) as [[props|]|] eqn:Hl; try done.
  injection Hrun as <- <-. split; [|done].
  apply extends_insert; [done..|].
  apply Forall_forall. intros v' [->|Hin]%elem_of_insert_vals; [done|].
  destruct Hext as [_ Hclosed].
  eapply Forall_forall; [by eapply (Hclosed l)|done].
Qed.

Lemma preserves_elements h0 v :
  fresh_for h0 v → preserves h0 (elements v) (Forall (fresh_for h0)).
Proof.
  intros Hv h a h' Hext Hrun. unfold elements in Hrun.
  destruct v as [| | |l]; try done.
  destruct (h !! l) as [[|elems]|] eqn:Hl; try done.
  injection Hrun as <- <-. split; [done|].
  destruct Hext as [_ Hclosed]. by apply (Hclosed l (Arr elems)).
Qed.

Lemma preserves_keys h0 v : preserves h0 (keys v) (λ _, True).
Proof.
  intros h a h' Hext Hrun. unfold keys in Hrun.
  destruct v as [| | |l]; try done.
  destruct (h !! l) as [[|]|]; try done.
  by injection Hrun as <- <-.
Qed.

Lemma preserves_for_each {A} h0 (xs : list A) (body : A → js unit) :
  (∀ x, preserves h0 (body x) (λ _, True)) →
  preserves h0 (for_each xs body) (λ _, True).
Proof.
  intros Hbody. induction xs as [|x xs IH]; simpl.
  - by apply preserves_ret.
  - eapply preserves_bind; [apply Hbody|]. intros _ _. apply IH.
Qed.

Lemma preserves_traverse {A B} h0 (f : A → js B) (xs : list A)
  (P : A → Prop) (Q : B → Prop) :
(∀ x, P x → preserves h0 (f x) Q) →
Forall P xs →
preserves h0 (traverse f xs) (Forall Q).
Proof.
intros Hf. induction xs as [|x xs IH]; intros Hxs; simpl.
- by apply preserves_ret.
- apply Forall_cons in Hxs as [Hx Hxs].
  eapply preserves_bind; [by apply Hf|]. intros y Hy.
  eapply preserves_bind; [by apply IH|]. intros ys Hys.
  apply preserves_ret. by constructor.
Qed.

End store_logic.

Section store_clone.
Import Store.
Implicit Types (h : heap) (v : val) (l : loc).

Lemma elem_of_for_of_insert_vals (kvs : list (string * val)) (o : gmap string val) v :
  v ∈ object_vals (Obj (for_of kvs (λ kv acc, <[kv.1 := kv.2]> acc) o)) →
  v ∈ kvs.*2 ∨ v ∈ object_vals (Obj o).
Proof.
  revert o. induction kvs as [|[key x] kvs IH]; intros o Hin; [by right|].
  apply IH in Hin as [Hin|Hin]; [left; by right|].
  apply elem_of_insert_vals in Hin as [->|Hin]; [left; by left | by right].
Qed.

Lemma object_literal_vals_fresh h0 (kvs : list (string * val)) :
  Forall (fresh_for h0) kvs.*2 →
  Forall (fresh_for h0) (object_vals (Obj (object_literal kvs))).
Proof.
  intros Hkvs. apply Forall_forall. intros v Hin.
  apply elem_of_for_of_insert_vals in Hin as [Hin|Hin].
  - by eapply Forall_forall.
  - simpl in Hin. rewrite map_to_list_empty in Hin. by apply elem_of_nil in Hin.
Qed.

(** Parsing allocates; nothing it builds points into the earlier store. *)
Lemma preserves_JSON_parse h0 (text : json) :
preserves h0 (JSON_parse text) (fresh_for h0).
Proof.
induction text as [|s|items IH|members IH] using json_nested_ind; simpl.
- by apply preserves_ret.
- by apply preserves_ret.
- eapply preserves_bind; [|intros vs Hvs; by apply preserves_alloc].
  eapply preserves_traverse; [|exact IH]. by intros item Hitem.
- eapply (preserves_bind _ _ _ (Forall (λ kv, fresh_for h0 kv.2))).
  + eapply preserves_traverse; [|exact IH]. intros [key item] Hitem. simpl in *.
    eapply preserves_bind; [exact Hitem|]. intros v Hv. by apply preserves_ret.
  + intros kvs Hkvs. apply preserves_alloc, object_literal_vals_fresh.
    by apply Forall_fmap.
Qed.

Lemma preserves_JSON_clone h0 theme :
  preserves h0 (JSON_clone theme) (fresh_for h0).
Proof.
  intros h a h' Hext Hrun. unfold JSON_clone in Hrun.
  destruct (JSON_stringify theme h) as [text|]; [|done].
  by eapply preserves_JSON_parse.
Qed.

Lemma preserves_assign h0 target source :
  fresh_for h0 target → fresh_for h0 source →
  preserves h0 (assign target source) (λ _, True).
Proof.
  intros Ht Hs. unfold assign.
  eapply preserves_bind; [apply preserves_keys|]. intros ks _.
  apply preserves_for_each. intros key.
  eapply preserves_bind; [by apply preserves_get|]. intros x Hx.
  by apply preserves_set.
Qed.

Lemma preserves_soft_body `{TinyColor} h0 bright colors key :
  fresh_for h0 colors → preserves h0 (soft_body bright colors key) (λ _, True).
Proof.
  intros Hc. unfold soft_body.
  eapply preserves_bind; [by apply preserves_get|]. intros c _.
  destruct (includes bright c); [|by apply preserves_ret].
  destruct c; try apply preserves_throw. by apply preserves_set.
Qed.

Lemma preserves_soft_token `{TinyColor} h0 bright value :
  fresh_for h0 value → preserves h0 (soft_token bright value) (fresh_for h0).
Proof.
  intros Hv. unfold soft_token.
  eapply preserves_bind; [by apply preserves_get|]. intros settings Hs.
  eapply preserves_bind; [by apply preserves_get|]. intros fg _.
  destruct (includes bright fg); [|by apply preserves_ret].
  destruct fg; try apply preserves_throw.
  eapply preserves_bind; [by apply preserves_set|]. intros _ _.
  by apply preserves_ret.
Qed.

Lemma preserves_transformSoft `{TinyColor} h0 theme :
  preserves h0 (transformSoft theme) (fresh_for h0).
Proof.
  unfold transformSoft.
  eapply preserves_bind; [apply preserves_JSON_clone|]. intros soft Hsoft.
  eapply preserves_bind; [by apply preserves_get|]. intros dracula Hd.
  eapply preserves_bind; [by apply preserves_get|]. intros ansi Ha.
  eapply preserves_bind; [by apply preserves_elements|]. intros ansi_elems _.
  eapply preserves_bind; [by apply preserves_get|]. intros brightOther Hb.
  eapply preserves_bind; [by apply preserves_elements|]. intros brightOther_elems _.
  eapply preserves_bind; [by apply preserves_get|]. intros colors Hc.
  eapply preserves_bind; [apply preserves_keys|]. intros ks _.
  eapply preserves_bind;
    [apply preserves_for_each; intros key; by apply preserves_soft_body|].
  intros _ _.
  eapply preserves_bind; [by apply preserves_get|]. intros tokenColors Ht.
  eapply preserves_bind; [by apply preserves_elements|]. intros rules Hrules.
  eapply preserves_bind;
    [eapply preserves_traverse; [intros; by apply preserves_soft_token | done]|].
  intros mapped Hmapped.
  eapply preserves_bind; [by apply preserves_alloc|]. intros mapped_array Hm.
  eapply preserves_bind; [by apply preserves_set|]. intros _ _.
  by apply preserves_ret.
Qed.

Lemma preserves_sweep_body h0 colors key :
  fresh_for h0 colors → preserves h0 (sweep_body colors key) (λ _, True).
Proof.
  intros Hc. unfold sweep_body.
  destruct (_ || _ || _); [|by apply preserves_ret].
  destruct (_ || _); [by apply preserves_ret|].
  repeat (destruct (JsString.includes key _); [by apply preserves_ret|]).
  by apply preserves_set.
Qed.

Lemma preserves_transformHighContrast h0 theme :
  preserves h0 (transformHighContrast theme) (fresh_for h0).
Proof.
  unfold transformHighContrast.
  eapply preserves_bind; [apply preserves_JSON_clone|]. intros hc Hhc.
  eapply preserves_bind; [by apply preserves_get|]. intros colors Hc.
  eapply preserves_bind; [apply preserves_keys|]. intros ks _.
  eapply preserves_bind;
    [apply preserves_for_each; intros key; by apply preserves_sweep_body|].
  intros _ _.
  eapply (preserves_bind _ _ _ (fresh_for h0)).
  - apply preserves_alloc. apply Forall_forall.
    intros v ([key x] & -> & Hin)%list_elem_of_fmap.
    apply elem_of_map_to_list, lookup_fmap_Some in Hin as (j & <- & _).
    by destruct j.
  - intros table Htable.
    eapply preserves_bind; [by apply preserves_assign|]. intros _ _.
    by apply preserves_ret.
Qed.

End store_clone.

Section store_reachability.
Import Store.
Implicit Types (h : heap) (v : val) (l : loc).

(** What [stringify] prints of an object's parts. *)
Lemma stringify_parts fuel h l o text :
  h !! l = Some o → stringify (S fuel) h (VRef l) = Some text →
  ∀ v, v ∈ object_vals o → v ≠ VUndefined → is_Some (stringify fuel h v).
Proof.
  intros Hl Hs v Hin Hdef. simpl in Hs. rewrite Hl in Hs.
  destruct o as [props|elems]; apply fmap_Some in Hs as (parts & Hparts & _);
    apply mapM_Some in Hparts.
  - simpl in Hin. apply list_elem_of_fmap in Hin as ([key v'] & -> & Hin).
    assert (Hf : (key, v') ∈ filter (λ kv : string * val, kv.2 ≠ VUndefined)
                                    (map_to_list props))
      by by apply list_elem_of_filter.
    apply list_elem_of_lookup in Hf as [i Hi].
    destruct (Forall2_lookup_l _ _ _ _ _ Hparts Hi) as (kj & _ & Hkj).
    simpl in *. destruct (stringify fuel h v'); [eauto | done].
  - simpl in Hin. apply list_elem_of_lookup in Hin as [i Hi].
    destruct (Forall2_lookup_l _ _ _ _ _ Hparts Hi) as (j & _ & Hj). eauto.
Qed.

(** The text printed from a store is printed from every extension of it. *)
Lemma stringify_prefix fuel h h' v text :
  h `prefix_of` h' → stringify fuel h v = Some text → stringify fuel h' v = Some text.
Proof.
  intros Hpre. revert v text. induction fuel as [|fuel IH]; intros v text; [done|].
  simpl. destruct v as [| | |l]; try done.
  destruct (h !! l) as [o|] eqn:Hl; [|done].
  rewrite (prefix_lookup_Some _ _ _ _ Hl Hpre).
  destruct o as [props|elems]; intros (parts & Hparts & ->)%fmap_Some;
    apply fmap_Some; exists parts; (split; [|done]);
    apply mapM_Some; apply mapM_Some in Hparts;
    eapply Forall2_impl; [exact Hparts| |exact Hparts|].
  - intros [key v] kj. simpl.
    destruct (stringify fuel h v) as [j|] eqn:Hv; [|done].
    by rewrite (IH _ _ Hv).
  - intros v j. apply IH.
Qed.

Lemma snapshot_prefix h h' v text :
  h `prefix_of` h' → snapshot h v text → snapshot h' v text.
Proof. intros Hpre [fuel Hs]. exists fuel. by eapply stringify_prefix. Qed.

(** What an extension can reach from a printable structure was already
    reachable, and lies in the earlier store. *)
Lemma reachable_printed fuel h h' v text l :
  h `prefix_of` h' → stringify fuel h v = Some text →
  reachable h' v l → l < length h.
Proof.
  intros Hpre. revert v text.
  induction fuel as [|fuel IH]; intros v text Hs Hreach; [done|].
  inversion Hreach as [l0 o Hl0 | l0 o v' l1 Hl0 Hin Hsub]; subst.
  - simpl in Hs. destruct (h !! l) as [o'|] eqn:Hl; [|done].
    by eapply lookup_lt_Some.
  - assert (Hl : h !! l0 = Some o).
    { simpl in Hs. destruct (h !! l0) as [o'|] eqn:Hl; [|done].
      rewrite (prefix_lookup_Some _ _ _ _ Hl Hpre) in Hl0. congruence. }
    assert (Hdef : v' ≠ VUndefined) by (intros ->; inversion Hsub).
    destruct (stringify_parts _ _ _ _ _ Hl Hs v' Hin Hdef) as [text' Hs'].
    by eapply IH.
Qed.

(** From a value that is new, only new objects are reached. *)
Lemma reachable_fresh h0 h v l :
  extends h0 h → fresh_for h0 v → reachable h v l → length h0 ≤ l.
Proof.
  intros Hext Hv Hreach.
  induction Hreach as [l o Hl | l o v' l' Hl Hin _ IH]; [done|].
  apply IH. destruct Hext as [_ Hclosed].
  eapply Forall_forall; [by eapply Hclosed | done].
Qed.

Lemma JSON_clone_printed theme h soft h1 :
  JSON_clone theme h = Some (soft, h1) →
  ∃ text, stringify (S (length h)) h theme = Some text.
Proof.
  unfold JSON_clone, JSON_stringify. intros Hrun.
  destruct theme; try done;
    destruct (stringify _ h _) as [text|] eqn:Hs; try done; eauto.
Qed.

(** The shape shared by both transforms: a computation that starts with
    the clone of its argument and keeps the earlier store apart. *)
Lemma cloning_transform_frame (transform : val → js val) (rest : val → js val) :
  (∀ theme, transform theme = bind (JSON_clone theme) rest) →
  (∀ h0 theme, preserves h0 (transform theme) (fresh_for h0)) →
  ∀ theme out h h',
    transform theme h = Some (out, h') →
    h `prefix_of` h' ∧
    (∃ text, snapshot h theme text ∧ snapshot h' theme text) ∧
    (∀ l, reachable h' out l → length h ≤ l ∧ ¬ reachable h' theme l).
Proof.
  intros Hshape Hpres theme out h h' Hrun.
  destruct (Hpres h theme h out h' (extends_refl h) Hrun) as [Hext Hout].
  assert (Hprinted : ∃ text, stringify (S (length h)) h theme = Some text).
  { rewrite Hshape in Hrun. apply bind_Some in Hrun as (soft & h1 & Hclone & _).
    by eapply JSON_clone_printed. }
  destruct Hprinted as [text Hs].
  split; [apply Hext|]. split.
  - exists text. split; [by eexists|].
    eapply snapshot_prefix; [apply Hext | by eexists].
  - intros l Hreach.
    assert (Hle : length h ≤ l) by by eapply reachable_fresh.
    split; [done|]. intros Hin.
    assert (l < length h); [|lia].
    eapply reachable_printed; [apply Hext | exact Hs | exact Hin].
Qed.

End store_reachability.

(** * The layout of a parsed text *)

Section tree_lemmas.
Import Store.
Implicit Types (h : heap) (v : val) (j : json).

Lemma tree_all_le h :
  (∀ lo hi v j, tree h lo hi v j → lo ≤ hi) ∧
  (∀ lo hi vs js, trees h lo hi vs js → lo ≤ hi) ∧
  (∀ lo hi kvs ms, member_trees h lo hi kvs ms → lo ≤ hi).
Proof. apply tree_all_ind; intros; lia. Qed.

Lemma tree_le h lo hi v j : tree h lo hi v j → lo ≤ hi.
Proof. apply tree_all_le. Qed.

Lemma trees_le h lo hi vs js : trees h lo hi vs js → lo ≤ hi.
Proof. apply tree_all_le. Qed.

Lemma member_trees_le h lo hi kvs ms : member_trees h lo hi kvs ms → lo ≤ hi.
Proof. apply tree_all_le. Qed.

(** A tree depends on the objects of its interval only. *)
Lemma tree_all_agree h h' :
  (∀ lo hi v j, tree h lo hi v j →
     (∀ l, lo ≤ l < hi → h' !! l = h !! l) → tree h' lo hi v j) ∧
  (∀ lo hi vs js, trees h lo hi vs js →
     (∀ l, lo ≤ l < hi → h' !! l = h !! l) → trees h' lo hi vs js) ∧
  (∀ lo hi kvs ms, member_trees h lo hi kvs ms →
     (∀ l, lo ≤ l < hi → h' !! l = h !! l) → member_trees h' lo hi kvs ms).
Proof.
  apply tree_all_ind.
  - intros lo _. constructor.
  - intros lo s _. constructor.
  - intros lo l vs items Hparts IH Hl Hagree.
    apply trees_le in Hparts as Hle.
    eapply tree_arr; [apply IH; intros; apply Hagree; lia|].
    rewrite Hagree by lia. done.
  - intros lo l kvs ms Hparts IH Hl Hagree.
    apply member_trees_le in Hparts as Hle.
    eapply tree_obj; [apply IH; intros; apply Hagree; lia|].
    rewrite Hagree by lia. done.
  - intros lo _. constructor.
  - intros lo mid hi v j vs js Hv IHv Hvs IHvs Hagree.
    apply tree_le in Hv as Hle1. apply trees_le in Hvs as Hle2.
    econstructor; [apply IHv | apply IHvs]; intros; apply Hagree; lia.
  - intros lo _. constructor.
  - intros lo mid hi key v j kvs ms Hv IHv Hkvs IHkvs Hagree.
    apply tree_le in Hv as Hle1. apply member_trees_le in Hkvs as Hle2.
    econstructor; [apply IHv | apply IHkvs]; intros; apply Hagree; lia.
Qed.

Lemma tree_agree h h' lo hi v j :
  tree h lo hi v j → (∀ l, lo ≤ l < hi → h' !! l = h !! l) → tree h' lo hi v j.
Proof. apply tree_all_agree. Qed.

Lemma trees_agree h h' lo hi vs js :
  trees h lo hi vs js → (∀ l, lo ≤ l < hi → h' !! l = h !! l) → trees h' lo hi vs js.
Proof. apply tree_all_agree. Qed.

Lemma member_trees_agree h h' lo hi kvs ms :
  member_trees h lo hi kvs ms → (∀ l, lo ≤ l < hi → h' !! l = h !! l) →
  member_trees h' lo hi kvs ms.
Proof. apply tree_all_agree. Qed.

(** The interval of a tree is as long as its text has nodes. *)
Lemma tree_all_span h :
  (∀ lo hi v j, tree h lo hi v j → hi = lo + span j) ∧
  (∀ lo hi vs js, trees h lo hi vs js → hi = lo + sum_list (span <$> js)) ∧
  (∀ lo hi kvs ms, member_trees h lo hi kvs ms →
     hi = lo + sum_list ((λ kv, span kv.2) <$> ms)).
Proof. apply tree_all_ind; intros; csimpl in *; lia. Qed.

Lemma tree_span h lo hi v j : tree h lo hi v j → hi = lo + span j.
Proof. apply tree_all_span. Qed.

(** The interval of a tree is determined by its root and its text. *)
Lemma tree_interval h lo hi l j :
  tree h lo hi (VRef l) j → hi = S l ∧ lo = S l - span j.
Proof.
  intros Ht. apply tree_span in Ht as Hspan.
  inversion Ht; subst; lia.
Qed.

Lemma tree_lookup_lt h lo hi l j : tree h lo hi (VRef l) j → lo ≤ l < hi ∧ is_Some (h !! l).
Proof.
  intros Ht. inversion Ht as [| |? ? ? ? Hparts Hl|? ? ? ? Hparts Hl]; subst.
  - apply trees_le in Hparts. eauto with lia.
  - apply member_trees_le in Hparts. eauto with lia.
Qed.

End tree_lemmas.

Section parse_tree.
Import Store.
Implicit Types (h : heap) (v : val) (j : json).

Lemma tree_all_prefix h h' :
  h `prefix_of` h' →
  (∀ lo hi v j, tree h lo hi v j → tree h' lo hi v j) ∧
  (∀ lo hi vs js, trees h lo hi vs js → trees h' lo hi vs js) ∧
  (∀ lo hi kvs ms, member_trees h lo hi kvs ms → member_trees h' lo hi kvs ms).
Proof.
  intros Hpre. apply tree_all_ind; intros; econstructor; eauto using prefix_lookup_Some.
Qed.

Lemma tree_prefix h h' lo hi v j :
  h `prefix_of` h' → tree h lo hi v j → tree h' lo hi v j.
Proof. intros Hpre. by apply tree_all_prefix. Qed.

Lemma trees_prefix h h' lo hi vs js :
  h `prefix_of` h' → trees h lo hi vs js → trees h' lo hi vs js.
Proof. intros Hpre. by apply tree_all_prefix. Qed.

Lemma member_trees_prefix h h' lo hi kvs ms :
  h `prefix_of` h' → member_trees h lo hi kvs ms → member_trees h' lo hi kvs ms.
Proof. intros Hpre. by apply tree_all_prefix. Qed.

Lemma alloc_run (o : object) h : alloc o h = Some (VRef (length h), h ++ [o]).
Proof. done. Qed.

Lemma bind_run {A B} (c : js A) (k : A → js B) h a h' :
  c h = Some (a, h') → bind c k h = k a h'.
Proof. unfold bind. by intros ->. Qed.

Lemma traverse_parsed (items : list json) :
  Forall parsed items →
  ∀ h, ∃ vs h', traverse JSON_parse items h = Some (vs, h') ∧ h `prefix_of` h' ∧
                trees h' (length h) (length h') vs items.
Proof.
  induction 1 as [|item rest Hitem _ IH]; intros h; simpl.
  - exists [], h. split; [done|]. split; [done|]. constructor.
  - destruct (Hitem h) as (v & h1 & Hrun1 & Hpre1 & Ht1).
    destruct (IH h1) as (vs & h2 & Hrun2 & Hpre2 & Ht2).
    exists (v :: vs), h2. rewrite (bind_run _ _ _ _ _ Hrun1), (bind_run _ _ _ _ _ Hrun2).
    split; [done|]. split; [by etrans|].
    econstructor; [by eapply tree_prefix | done].
Qed.

Lemma traverse_members_parsed (members : list (string * json)) :
  Forall (λ kv, parsed kv.2) members →
  ∀ h, ∃ kvs h',
    traverse (λ kv, bind (JSON_parse kv.2) (λ v, ret (kv.1, v))) members h
      = Some (kvs, h') ∧
    h `prefix_of` h' ∧ member_trees h' (length h) (length h') kvs members.
Proof.
  induction 1 as [|[key item] rest Hitem _ IH]; intros h; simpl.
  - exists [], h. split; [done|]. split; [done|]. constructor.
  - destruct (Hitem h) as (v & h1 & Hrun1 & Hpre1 & Ht1).
    destruct (IH h1) as (kvs & h2 & Hrun2 & Hpre2 & Ht2).
    exists ((key, v) :: kvs), h2. simpl in *.
    rewrite (bind_run _ _ _ (key, v) h1).
    + rewrite (bind_run _ _ _ _ _ Hrun2).
      split; [done|]. split; [by etrans|].
      econstructor; [by eapply tree_prefix | done].
    + by rewrite (bind_run _ _ _ _ _ Hrun1).
Qed.

Lemma JSON_parse_tree j : parsed j.
Proof.
  induction j as [|s|items IH|members IH] using json_nested_ind; intros h; simpl.
  - exists VNull, h. split; [done|]. split; [done|]. constructor.
  - exists (VStr s), h. split; [done|]. split; [done|]. constructor.
  - destruct (traverse_parsed items IH h) as (vs & h1 & Hrun & Hpre & Ht).
    exists (VRef (length h1)), (h1 ++ [Arr vs]).
    rewrite (bind_run _ _ _ _ _ Hrun), alloc_run.
    split; [done|]. split; [etrans; [done | by apply prefix_app_r]|].
    rewrite length_app, Nat.add_1_r.
    eapply tree_arr; [eapply trees_prefix; [|exact Ht]; by apply prefix_app_r|].
    by apply list_lookup_middle.
  - destruct (traverse_members_parsed members IH h) as (kvs & h1 & Hrun & Hpre & Ht).
    exists (VRef (length h1)), (h1 ++ [Obj (object_literal kvs)]).
    rewrite (bind_run _ _ _ _ _ Hrun), alloc_run.
    split; [done|]. split; [etrans; [done | by apply prefix_app_r]|].
    rewrite length_app, Nat.add_1_r.
    eapply tree_obj; [eapply member_trees_prefix; [|exact Ht]; by apply prefix_app_r|].
    by apply list_lookup_middle.
Qed.

End parse_tree.

Section member_lemmas.
Import Store.
Implicit Types (h : heap) (v : val) (j : json).

Lemma members_related_step h lo0 lo mid key v j ov oj :
  lo0 ≤ lo → tree h lo mid v j → members_related h lo0 lo ov oj →
  members_related h lo0 mid (<[key := v]> ov) (<[key := j]> oj).
Proof.
  intros Hlo Ht (Hnone & Hsome & Hpair). apply tree_le in Ht as Hle.
  split; [|split].
  - intros k Hk. apply lookup_insert_None in Hk as [Hk Hne].
    rewrite lookup_insert_ne by done. by apply Hnone.
  - intros k j' Hk. destruct (decide (key = k)) as [<-|Hne].
    + rewrite lookup_insert_eq in Hk. injection Hk as <-.
      exists v, lo, mid. rewrite lookup_insert_eq. eauto with lia.
    + rewrite lookup_insert_ne in Hk by done.
      destruct (Hsome k j' Hk) as (v' & a & b & Hv' & Ht' & ? & ?).
      exists v', a, b. rewrite lookup_insert_ne by done. eauto with lia.
  - intros k1 k2 j1 j2 Hne H1 H2.
    destruct (decide (key = k1)) as [<-|Hne1]; [|destruct (decide (key = k2)) as [<-|Hne2]].
    + rewrite lookup_insert_eq in H1. injection H1 as <-.
      rewrite lookup_insert_ne in H2 by done.
      destruct (Hsome k2 j2 H2) as (v2 & a2 & b2 & Hv2 & Ht2 & ? & ?).
      exists v, lo, mid, v2, a2, b2.
      rewrite lookup_insert_eq, lookup_insert_ne by done.
      repeat split; eauto with lia.
    + rewrite lookup_insert_eq in H2. injection H2 as <-.
      rewrite lookup_insert_ne in H1 by done.
      destruct (Hsome k1 j1 H1) as (v1 & a1 & b1 & Hv1 & Ht1 & ? & ?).
      exists v1, a1, b1, v, lo, mid.
      rewrite lookup_insert_eq, lookup_insert_ne by done.
      repeat split; eauto with lia.
    + rewrite lookup_insert_ne in H1, H2 by done.
      destruct (Hpair k1 k2 j1 j2 Hne H1 H2)
        as (v1 & a1 & b1 & v2 & a2 & b2 & ? & ? & ? & ? & ? & ? & ? & ? & ?).
      exists v1, a1, b1, v2, a2, b2. rewrite !lookup_insert_ne by done.
      repeat split; eauto with lia.
Qed.

Lemma member_trees_related_gen h lo hi kvs ms :
  member_trees h lo hi kvs ms →
  ∀ lo0 ov oj, lo0 ≤ lo → members_related h lo0 lo ov oj →
    members_related h lo0 hi
      (for_of kvs (λ kv acc, <[kv.1 := kv.2]> acc) ov)
      (for_of ms (λ kv acc, <[kv.1 := kv.2]> acc) oj).
Proof.
  induction 1 as [lo|lo mid hi key v j kvs ms Ht Hrest IH]; intros lo0 ov oj Hlo Hrel.
  - done.
  - apply tree_le in Ht as Hle. apply (IH lo0); [lia|].
    by eapply members_related_step.
Qed.

(** The members of a parsed object. *)
Lemma member_trees_related h lo hi kvs ms :
  member_trees h lo hi kvs ms →
  members_related h lo hi (object_literal kvs) (object_literal ms).
Proof.
  intros Hm. eapply member_trees_related_gen; [done..|].
  split; [|split]; intros *; rewrite ?lookup_empty; done.
Qed.

End member_lemmas.

(** * Reading the layout of a parsed theme *)

Section typed_extraction.
Import Store.
Implicit Types (h : heap) (v : val) (j : json).

Lemma trees_strings h lo hi vs items ss :
  trees h lo hi vs items → mapM decode_string items = Some ss → vs = VStr <$> ss.
Proof.
  intros Ht Hd. apply mapM_Some in Hd. revert ss Hd.
  induction Ht as [lo|lo mid hi v j vs js Hv _ IH]; intros ss Hd.
  - by inversion Hd.
  - inversion Hd as [|? s ? ss' Hs Hrest]; subst. csimpl. f_equal; [|by apply IH].
    destruct j; try done. injection Hs as ->. by inversion Hv.
Qed.

Lemma tree_strings h lo hi v j ss :
  tree h lo hi v j → decode_strings j = Some ss →
  ∃ l, v = VRef l ∧ lo ≤ l ∧ hi = S l ∧ h !! l = Some (Arr (VStr <$> ss)).
Proof.
  intros Ht Hd. destruct j as [| |items|]; try done. simpl in Hd.
  inversion Ht as [| |? l vs ? Hparts Hl|]; subst.
  exists l. apply trees_le in Hparts as Hle.
  by rewrite <-(trees_strings _ _ _ _ _ _ Hparts Hd).
Qed.

Lemma tree_strings_at h lo hi v j ss :
  tree h lo hi v j → decode_strings j = Some ss → strings_at h v ss.
Proof. intros Ht Hd. destruct (tree_strings _ _ _ _ _ _ Ht Hd) as (l & -> & _ & _ & Hl). by exists l. Qed.

Lemma tree_color h lo hi v j c :
  tree h lo hi v j → decode_color j = Some c → v = of_jsval c.
Proof. intros Ht Hd. destruct j; try done; injection Hd as <-; by inversion Ht. Qed.

Lemma tree_colors h lo hi v j m :
  tree h lo hi v j → decode_colors j = Some m →
  ∃ l, v = VRef l ∧ lo ≤ l ∧ hi = S l ∧ h !! l = Some (Obj (of_jsval <$> m)).
Proof.
  intros Ht Hd. destruct j as [| | |ms]; try done. simpl in Hd.
  case_decide as Hall; [|done]. injection Hd as <-.
  inversion Ht as [| | |? l kvs ? Hparts Hl]; subst.
  exists l. apply member_trees_le in Hparts as Hle.
  split; [done|]. split; [done|]. split; [done|]. rewrite Hl. do 2 f_equal.
  apply member_trees_related in Hparts as (Hnone & Hsome & _).
  apply map_eq. intros k. rewrite lookup_fmap, lookup_omap.
  destruct (object_literal ms !! k) as [j|] eqn:Hj.
  - destruct (Hsome k j Hj) as (v & a & b & -> & Hv & _).
    destruct (Hall k j Hj) as [c Hc]. simpl. rewrite Hc. simpl.
    f_equal. by eapply tree_color.
  - by rewrite (Hnone k Hj).
Qed.

(** An optional string member and the property the parsed object holds. *)
Lemma related_optional h lo hi ov oj key o :
  members_related h lo hi ov oj → decode_optional (oj !! key) = Some o →
  prop ov key = optional_val o.
Proof.
  intros (Hnone & Hsome & _) Hd. unfold prop.
  destruct (oj !! key) as [j|] eqn:Hj.
  - destruct (Hsome key j Hj) as (v & a & b & -> & Hv & _).
    destruct j; try done. injection Hd as <-. by inversion Hv.
  - injection Hd as <-. by rewrite (Hnone key Hj).
Qed.

Lemma tree_settings h lo hi v j s :
  tree h lo hi v j → decode_settings j = Some s →
  ∃ l props, v = VRef l ∧ lo ≤ l ∧ hi = S l ∧ h !! l = Some (Obj props) ∧
             settings_props props s.
Proof.
  intros Ht Hd. destruct j as [| | |ms]; try done. simpl in Hd.
  inversion Ht as [| | |? l kvs ? Hparts Hl]; subst.
  apply member_trees_le in Hparts as Hle.
  apply member_trees_related in Hparts as Hrel.
  unfold member in Hd.
  destruct (decode_optional (object_literal ms !! "foreground")) as [fg|] eqn:Hfg; [|done].
  destruct (decode_optional (object_literal ms !! "background")) as [bg|] eqn:Hbg; [|done].
  destruct (decode_optional (object_literal ms !! "fontStyle")) as [fs|] eqn:Hfs; [|done].
  injection Hd as <-.
  exists l, (object_literal kvs). repeat split; try done; simpl;
    by eapply related_optional.
Qed.

Lemma tree_token h lo hi v j tk :
  tree h lo hi v j → decode_token j = Some tk → token_in h lo hi v tk.
Proof.
  intros Ht Hd. destruct j as [| | |ms]; try done. simpl in Hd.
  inversion Ht as [| | |? l kvs ? Hparts Hl]; subst.
  apply member_trees_related in Hparts as Hrel.
  unfold member in Hd.
  destruct (decode_optional (object_literal ms !! "name")) as [n|] eqn:Hn; [|done].
  destruct (object_literal ms !! "scope") as [jsc|] eqn:Hjsc; [|done].
  simpl in Hd.
  destruct (decode_strings jsc) as [sc|] eqn:Hsc; [|done].
  destruct (object_literal ms !! "settings") as [jst|] eqn:Hjst; [|done].
  simpl in Hd.
  destruct (decode_settings jst) as [st|] eqn:Hst; [|done].
  injection Hd as <-.
  pose proof (related_optional _ _ _ _ _ _ _ Hrel Hn) as Hname.
  destruct Hrel as (_ & _ & Hpair).
  destruct (Hpair "settings" "scope" jst jsc) as
    (v1 & a1 & b1 & v2 & a2 & b2 & Hv1 & Ht1 & ? & ? & Hv2 & Ht2 & ? & ? & Hdisj);
    [done..|].
  destruct (tree_settings _ _ _ _ _ _ Ht1 Hst) as (ls & sprops & -> & ? & -> & Hls & Hsp).
  destruct (tree_strings _ _ _ _ _ _ Ht2 Hsc) as (lsc & -> & ? & -> & Hlsc).
  exists l, (object_literal kvs), ls, sprops, lsc. unfold prop at 2 3.
  rewrite Hv1, Hv2. simpl. split_and!; try done; lia.
Qed.

Lemma trees_tokens h lo hi vs items tks :
  trees h lo hi vs items → mapM decode_token items = Some tks →
  tokens_in h lo hi vs tks.
Proof.
  intros Ht Hd. apply mapM_Some in Hd. revert tks Hd.
  induction Ht as [lo|lo mid hi v j vs js Hv _ IH]; intros tks Hd.
  - inversion Hd. constructor.
  - inversion Hd as [|? tk ? tks' Htk Hrest]; subst.
    econstructor; [by eapply tree_le | by eapply tree_token | by apply IH].
Qed.

Lemma tree_dracula h lo hi v j d :
  tree h lo hi v j → decode_dracula j = Some d → dracula_at h v d.
Proof.
  intros Ht Hd. destruct j as [| | |ms]; try done. simpl in Hd.
  inversion Ht as [| | |? l kvs ? Hparts Hl]; subst.
  apply member_trees_related in Hparts as (_ & Hsome & _).
  unfold member in Hd.
  destruct (object_literal ms !! "base") as [j1|] eqn:Hj1; [|done]. simpl in Hd.
  destruct (decode_strings j1) as [b|] eqn:Hd1; [|done].
  destruct (object_literal ms !! "ansi") as [j2|] eqn:Hj2; [|done]. simpl in Hd.
  destruct (decode_strings j2) as [a|] eqn:Hd2; [|done].
  destruct (object_literal ms !! "brightOther") as [j3|] eqn:Hj3; [|done]. simpl in Hd.
  destruct (decode_strings j3) as [bo|] eqn:Hd3; [|done].
  destruct (object_literal ms !! "other") as [j4|] eqn:Hj4; [|done]. simpl in Hd.
  destruct (decode_strings j4) as [o|] eqn:Hd4; [|done].
  injection Hd as <-.
  destruct (Hsome _ _ Hj1) as (v1 & ? & ? & Hv1 & Ht1 & _).
  destruct (Hsome _ _ Hj2) as (v2 & ? & ? & Hv2 & Ht2 & _).
  destruct (Hsome _ _ Hj3) as (v3 & ? & ? & Hv3 & Ht3 & _).
  destruct (Hsome _ _ Hj4) as (v4 & ? & ? & Hv4 & Ht4 & _).
  exists l, (object_literal kvs). unfold prop. rewrite Hv1, Hv2, Hv3, Hv4. simpl.
  repeat split; try done; by eapply tree_strings_at.
Qed.

End typed_extraction.

(** * Running the store operations *)

Section run_lemmas.
Import Store.
Implicit Types (h : heap) (v : val).

Lemma get_run h l props key :
  h !! l = Some (Obj props) → get (VRef l) key h = Some (prop props key, h).
Proof. unfold get. by intros ->. Qed.

Lemma set_run h l props key x :
  h !! l = Some (Obj props) →
  set (VRef l) key x h = Some ((), <[l := Obj (<[key := x]> props)]> h).
Proof. unfold set. by intros ->. Qed.

Lemma elements_run h l vs :
  h !! l = Some (Arr vs) → elements (VRef l) h = Some (vs, h).
Proof. unfold elements. by intros ->. Qed.

Lemma keys_run h l props :
  h !! l = Some (Obj props) → keys (VRef l) h = Some (Object_keys props, h).
Proof. unfold keys. by intros ->. Qed.

Lemma includes_strings (bright : list string) (o : option string) :
  includes (VStr <$> bright) (optional_val o) =
  match o with Some c => bool_decide (c ∈ bright) | None => false end.
Proof.
  unfold includes. destruct o as [c|]; simpl.
  - apply bool_decide_ext. rewrite list_elem_of_fmap. split.
    + by intros (c' & [= ->] & Hin).
    + intros Hin. by exists c.
  - apply bool_decide_eq_false. by intros (c' & ? & _)%list_elem_of_fmap.
Qed.

Lemma includes_color (bright : list string) (o : option jsval) :
  includes (VStr <$> bright) (default VUndefined (of_jsval <$> o)) =
  match o with Some (Str c) => bool_decide (c ∈ bright) | _ => false end.
Proof.
  destruct o as [[|c]|]; simpl.
  - apply bool_decide_eq_false. by intros (c' & ? & _)%list_elem_of_fmap.
  - apply (includes_strings bright (Some c)).
  - apply (includes_strings bright None).
Qed.

(** A loop that rewrites the properties of one object of the store, one key
    at a time, computes what the same loop computes on the mapping that
    object holds. *)
Lemma for_each_object lc (Inv : heap → Prop)
    (body : string → js unit)
    (step : string → gmap string jsval → gmap string jsval) (ks : list string) :
  (∀ h o, Inv h → Inv (<[lc := o]> h)) →
  (∀ key m h, key ∈ ks → Inv h → h !! lc = Some (Obj (of_jsval <$> m)) →
     body key h = Some ((), <[lc := Obj (of_jsval <$> step key m)]> h)) →
  ∀ m h, Inv h → h !! lc = Some (Obj (of_jsval <$> m)) →
    for_each ks body h = Some ((), <[lc := Obj (of_jsval <$> for_of ks step m)]> h).
Proof.
  intros Hinv Hbody. unfold for_of.
  induction ks as [|key ks IH]; intros m h HI Hl; simpl.
  - unfold ret. by rewrite list_insert_id.
  - rewrite (bind_run _ _ _ () (<[lc := Obj (of_jsval <$> step key m)]> h)).
    + rewrite (IH (λ key' m' h' Hin, Hbody key' m' h' (list_elem_of_further _ _ _ Hin))
                 (step key m)).
      * by rewrite list_insert_insert_eq.
      * by apply Hinv.
      * apply list_lookup_insert_eq. by eapply lookup_lt_Some.
    + apply Hbody; [by left|done..].
Qed.

End run_lemmas.

Section body_refinement.
Implicit Types (h : Store.heap).

Lemma soft_body_run `{TinyColor} (bright : list string) lc key m h :
  h !! lc = Some (Store.Obj (Store.of_jsval <$> m)) →
  Store.soft_body (Store.VStr <$> bright) (Store.VRef lc) key h
    = Some ((), <[lc := Store.Obj (Store.of_jsval <$> soft_body bright key m)]> h).
Proof.
  intros Hl. unfold Store.soft_body, soft_body.
  rewrite (bind_run _ _ _ _ _ (get_run _ _ _ key Hl)).
  unfold prop. rewrite lookup_fmap, includes_color.
  destruct (m !! key) as [[|c]|] eqn:Hm; simpl;
    try (unfold Store.ret; by rewrite list_insert_id).
  case_bool_decide.
  - rewrite (set_run _ _ _ _ _ Hl). by rewrite fmap_insert.
  - unfold Store.ret. by rewrite list_insert_id.
Qed.

Lemma sweep_body_run lc key m h :
  h !! lc = Some (Store.Obj (Store.of_jsval <$> m)) →
  Store.sweep_body (Store.VRef lc) key h
    = Some ((), <[lc := Store.Obj (Store.of_jsval <$> sweep_body key m)]> h).
Proof.
  intros Hl. unfold Store.sweep_body, sweep_body.
  destruct (_ || _ || _); [|unfold Store.ret; by rewrite list_insert_id].
  destruct (_ || _); [unfold Store.ret; by rewrite list_insert_id|].
  repeat (destruct (JsString.includes key _);
          [unfold Store.ret; by rewrite list_insert_id|]).
  rewrite (set_run _ _ _ _ _ Hl). by rewrite fmap_insert.
Qed.

End body_refinement.

Section token_layout.
Import Store.
Implicit Types (h : heap) (v : val).

Lemma token_in_agree h h' lo hi v tk :
  token_in h lo hi v tk → (∀ l, lo ≤ l < hi → h' !! l = h !! l) →
  token_in h' lo hi v tk.
Proof.
  intros (l & props & ls & sprops & lsc & -> & -> & ? & ? & ? & Hl & ? & ? & Hls & ? & ? & Hlsc)
         Hagree.
  exists l, props, ls, sprops, lsc.
  rewrite !Hagree by lia. split_and!; try done; lia.
Qed.

Lemma tokens_in_le h lo hi vs tks : tokens_in h lo hi vs tks → lo ≤ hi.
Proof. induction 1; lia. Qed.

Lemma tokens_in_agree h h' lo hi vs tks :
  tokens_in h lo hi vs tks → (∀ l, lo ≤ l < hi → h' !! l = h !! l) →
  tokens_in h' lo hi vs tks.
Proof.
  induction 1 as [lo|lo mid hi v tk vs tks Hle Htk Hrest IH]; intros Hagree.
  - constructor.
  - apply tokens_in_le in Hrest as Hle'.
    econstructor; [done | | apply IH; intros; apply Hagree; lia].
    eapply token_in_agree; [done|]. intros. apply Hagree. lia.
Qed.

Lemma token_in_at h lo hi v tk : token_in h lo hi v tk → token_at h v tk.
Proof.
  intros (l & props & ls & sprops & lsc & -> & -> & ? & ? & ? & Hl & Hn & Hs & Hls & Hsp & Hsc & Hlsc).
  exists l, props. split_and!; try done.
  - rewrite Hsc. by exists lsc.
  - rewrite Hs. by exists ls, sprops.
Qed.

Lemma tokens_in_at h lo hi vs tks :
  tokens_in h lo hi vs tks → Forall2 (token_at h) vs tks.
Proof. induction 1; constructor; [by eapply token_in_at | done]. Qed.

End token_layout.

Section token_refinement.
Context `{TinyColor}.
Implicit Types (h : Store.heap) (v : Store.val).

Lemma soft_token_run (bright : list string) h lo hi v tk :
  token_in h lo hi v tk →
  ∃ h', Store.soft_token (Store.VStr <$> bright) v h = Some (v, h') ∧
        token_in h' lo hi v (soft_token bright tk) ∧
        length h' = length h ∧
        (∀ l, ¬ (lo ≤ l < hi) → h' !! l = h !! l).
Proof.
  intros Htk.
  pose proof Htk as
    (l & props & ls & sprops & lsc & -> & -> & ? & ? & ? & Hl & Hn & Hs & Hls & Hsp & Hsc & Hlsc).
  unfold Store.soft_token, soft_token.
  rewrite (bind_run _ _ _ _ _ (get_run _ _ _ "settings" Hl)), Hs.
  rewrite (bind_run _ _ _ _ _ (get_run _ _ _ "foreground" Hls)).
  destruct Hsp as (Hfg & Hbg & Hfs). rewrite Hfg, includes_strings.
  destruct (foreground (settings tk)) as [c|] eqn:Hc; simpl.
  - case_bool_decide.
    + rewrite (bind_run _ _ _ _ _ (set_run _ _ _ _ _ Hls)).
      eexists. split; [reflexivity|]. split; [|split].
      * exists l, props, ls, (<["foreground" := Store.VStr (soften c)]> sprops), lsc.
        split_and!; try done; try lia.
        -- rewrite list_lookup_insert_ne by lia. done.
        -- apply list_lookup_insert_eq. by eapply lookup_lt_Some.
        -- unfold settings_props, prop in *. simpl.
           rewrite lookup_insert_eq, !lookup_insert_ne by done. done.
        -- rewrite list_lookup_insert_ne by lia. done.
      * by rewrite length_insert.
      * intros l' Hl'. apply list_lookup_insert_ne. lia.
    + by exists h.
  - by exists h.
Qed.

Lemma soft_tokens_run (bright : list string) h lo hi vs tks :
  tokens_in h lo hi vs tks →
  ∃ h', Store.traverse (Store.soft_token (Store.VStr <$> bright)) vs h = Some (vs, h') ∧
        tokens_in h' lo hi vs (soft_token bright <$> tks) ∧
        length h' = length h ∧
        (∀ l, ¬ (lo ≤ l < hi) → h' !! l = h !! l).
Proof.
  intros Ht. revert h Ht.
  cut (∀ h0, tokens_in h0 lo hi vs tks → ∀ h,
         (∀ l, lo ≤ l < hi → h !! l = h0 !! l) →
         ∃ h', Store.traverse (Store.soft_token (Store.VStr <$> bright)) vs h = Some (vs, h') ∧
               tokens_in h' lo hi vs (soft_token bright <$> tks) ∧
               length h' = length h ∧
               (∀ l, ¬ (lo ≤ l < hi) → h' !! l = h !! l)).
  { intros Hgen h Ht. by apply (Hgen h). }
  intros h0. induction 1 as [lo|lo mid hi v tk vs tks Hle Htk Hrest IH]; intros h Hagree.
  - exists h. split; [done|]. split; [constructor | done].
  - apply tokens_in_le in Hrest as Hle'.
    assert (Htk' : token_in h lo mid v tk).
    { eapply token_in_agree; [done|]. intros. apply Hagree. lia. }
    destruct (soft_token_run bright _ _ _ _ _ Htk') as (h1 & Hrun1 & Htk1 & Hlen1 & Hout1).
    destruct (IH h1) as (h2 & Hrun2 & Hrest2 & Hlen2 & Hout2).
    { intros l Hl. rewrite Hout1 by lia. apply Hagree. lia. }
    exists h2. simpl.
    rewrite (bind_run _ _ _ _ _ Hrun1), (bind_run _ _ _ _ _ Hrun2).
    split; [done|]. split; [|split].
    + csimpl. econstructor; [done| |done].
      eapply token_in_agree; [done|]. intros. apply Hout2. lia.
    + lia.
    + intros l Hl. rewrite Hout2, Hout1 by lia. done.
Qed.

End token_refinement.

Section theme_layout.
Import Store.
Implicit Types (h : heap) (v : val) (j : json).

Lemma tree_node h lo hi v j :
  tree h lo hi v j → is_node j →
  ∃ l, v = VRef l ∧ hi = S l ∧ lo = S l - span j ∧ lo ≤ l.
Proof.
  intros Ht Hnode. destruct j; try done; inversion Ht; subst;
    (eexists; split; [done|]);
    destruct (tree_interval _ _ _ _ _ Ht) as [_ Hlo];
    apply tree_lookup_lt in Ht; lia.
Qed.

(** Two members of a parsed object that are objects or arrays: where they
    are, by the layout their texts determine. *)
Lemma related_nodes h lo hi ov oj k1 k2 j1 j2 :
  members_related h lo hi ov oj → k1 ≠ k2 →
  oj !! k1 = Some j1 → oj !! k2 = Some j2 → is_node j1 → is_node j2 →
  ∃ l1 l2,
    ov !! k1 = Some (VRef l1) ∧ tree h (S l1 - span j1) (S l1) (VRef l1) j1 ∧
    ov !! k2 = Some (VRef l2) ∧ tree h (S l2 - span j2) (S l2) (VRef l2) j2 ∧
    lo ≤ S l1 - span j1 ∧ S l1 - span j1 ≤ l1 ∧ l1 < hi ∧
    lo ≤ S l2 - span j2 ∧ S l2 - span j2 ≤ l2 ∧ l2 < hi ∧
    (S l1 ≤ S l2 - span j2 ∨ S l2 ≤ S l1 - span j1).
Proof.
  intros (_ & _ & Hpair) Hne H1 H2 Hn1 Hn2.
  destruct (Hpair k1 k2 j1 j2 Hne H1 H2)
    as (v1 & a1 & b1 & v2 & a2 & b2 & Hv1 & Ht1 & ? & ? & Hv2 & Ht2 & ? & ? & Hdisj).
  destruct (tree_node _ _ _ _ _ Ht1 Hn1) as (l1 & -> & -> & -> & ?).
  destruct (tree_node _ _ _ _ _ Ht2 Hn2) as (l2 & -> & -> & -> & ?).
  exists l1, l2. split_and!; try done; lia.
Qed.

Lemma decode_dracula_node j d : decode_dracula j = Some d → is_node j.
Proof. by destruct j. Qed.

Lemma decode_colors_node j m : decode_colors j = Some m → is_node j.
Proof. by destruct j. Qed.

Lemma decode_tokens_node j tks : decode_tokens j = Some tks → is_node j.
Proof. by destruct j. Qed.

(** The layout of a parsed theme. *)
Lemma tree_theme h lo hi v j t :
  tree h lo hi v j → decode_theme j = Some t → theme_in h lo v t ∧ hi ≤ length h.
Proof.
  intros Ht Hd. destruct j as [| | |ms]; try done. simpl in Hd.
  inversion Ht as [| | |? r kvs ? Hparts Hr]; subst.
  apply member_trees_related in Hparts as Hrel.
  unfold member in Hd.
  destruct (object_literal ms !! "dracula") as [jd|] eqn:Hjd; [|done]. simpl in Hd.
  destruct (decode_dracula jd) as [d|] eqn:Hdd; [|done].
  destruct (object_literal ms !! "colors") as [jc|] eqn:Hjc; [|done]. simpl in Hd.
  destruct (decode_colors jc) as [m|] eqn:Hdc; [|done].
  destruct (object_literal ms !! "tokenColors") as [jt|] eqn:Hjt; [|done]. simpl in Hd.
  destruct (decode_tokens jt) as [tks|] eqn:Hdt; [|done].
  injection Hd as <-. simpl.
  apply decode_dracula_node in Hdd as Hnd.
  apply decode_colors_node in Hdc as Hnc.
  apply decode_tokens_node in Hdt as Hnt.
  destruct (related_nodes _ _ _ _ _ "dracula" "colors" jd jc Hrel) as
    (ld & lc & Hvd & Htd & Hvc & Htc & ? & ? & ? & ? & ? & ? & Hdc');
    [done..|].
  destruct (related_nodes _ _ _ _ _ "dracula" "tokenColors" jd jt Hrel) as
    (ld' & lt & Hvd' & _ & Hvt & Htt & _ & _ & _ & ? & ? & ? & Hdt');
    [done..|].
  rewrite Hvd in Hvd'. injection Hvd' as <-.
  destruct (related_nodes _ _ _ _ _ "colors" "tokenColors" jc jt Hrel) as
    (lc' & lt' & Hvc' & _ & Hvt' & _ & _ & _ & _ & _ & _ & _ & Hct');
    [done..|].
  rewrite Hvc in Hvc'. injection Hvc' as <-.
  rewrite Hvt in Hvt'. injection Hvt' as <-.
  destruct (tree_colors _ _ _ _ _ _ Htc Hdc) as (lc' & [= <-] & _ & _ & Hlc).
  destruct jt as [| |items|]; try done. simpl in Hdt.
  inversion Htt as [| |? ? vts ? Htokens Hlt|]; subst.
  split; [|by eapply lookup_lt_Some].
  exists r, (object_literal kvs), (VRef ld), jd, (S ld - span jd), (S ld),
         lc, (S lc - span jc), lt, vts, (S lt - span (JArr items)).
  unfold prop. rewrite Hvd, Hvc, Hvt. simpl.
  split_and!; try done; try lia.
  by eapply trees_tokens.
Qed.

End theme_layout.

(** * The store transforms compute the transforms on theme values *)

Lemma for_of_keys_fmap {A B} (g : A → B)
    (body : string → gmap string A → gmap string A)
    (f : string → option A → option A) (m : gmap string A) :
  (∀ key o k, body key o !! k = if decide (k = key) then f key (o !! key) else o !! k) →
  for_of (Object_keys (g <$> m)) body m = for_of (Object_keys m) body m.
Proof.
  intros Hbody. apply map_eq. intros k.
  rewrite !(for_of_local body f Hbody) by apply Object_keys_NoDup.
  destruct (decide (k ∈ Object_keys m)) as [Hin|Hnin].
  - rewrite decide_True; [done|].
    apply elem_of_Object_keys. rewrite lookup_fmap.
    apply elem_of_Object_keys in Hin as [x ->]. by eexists.
  - rewrite decide_False; [done|]. intros Hin. apply Hnin.
    apply elem_of_Object_keys in Hin. rewrite lookup_fmap in Hin.
    apply elem_of_Object_keys. destruct (m !! k); [by eexists | by destruct Hin].
Qed.

Lemma JSON_clone_layout (theme : Store.val) (h : Store.heap) text t :
  Store.JSON_stringify theme h = Some text → decode_theme text = Some t →
  ∃ soft h1, Store.JSON_clone theme h = Some (soft, h1) ∧
             theme_in h1 (length h) soft t.
Proof.
  intros Hs Hd. unfold Store.JSON_clone. rewrite Hs.
  destruct (JSON_parse_tree text h) as (soft & h1 & Hrun & _ & Ht).
  exists soft, h1. split; [done|]. by eapply tree_theme.
Qed.

Section refinement.
Context `{TinyColor}.
Implicit Types (h : Store.heap) (t : Theme).

(** After the clone, the soft transform returns, and what it returns denotes
    the soft transform of the theme the clone denotes. *)
Lemma transformSoft_run theme h soft h1 lo t :
  Store.JSON_clone theme h = Some (soft, h1) → theme_in h1 lo soft t →
  ∃ h', Store.transformSoft theme h = Some (soft, h') ∧
        theme_at h' soft (transformSoft t).
Proof.
  intros Hclone (r & rprops & vd & jd & ad & bd & lc & ac & lt & vts & at_ & -> & Hr &
                 Hvd & Htd & Hdd & Hvc & Hlc & Hvt & Hlt & Htok & Hb).
  destruct Hb as (? & ? & ? & ? & ? & ? & ? & Hdc & Hdt & Hct).
  apply tokens_in_le in Htok as Hle_t.
  pose proof (tree_dracula _ _ _ _ _ _ Htd Hdd) as
    (ld & dprops & -> & Hld & _ & (la & Hva & Hla) & (lb & Hvb & Hlb) & _).
  unfold Store.transformSoft.
  rewrite (bind_run _ _ _ _ _ Hclone).
  rewrite (bind_run _ _ _ _ _ (get_run _ _ _ "dracula" Hr)), Hvd.
  rewrite (bind_run _ _ _ _ _ (get_run _ _ _ "ansi" Hld)), Hva.
  rewrite (bind_run _ _ _ _ _ (elements_run _ _ _ Hla)).
  rewrite (bind_run _ _ _ _ _ (get_run _ _ _ "brightOther" Hld)), Hvb.
  rewrite (bind_run _ _ _ _ _ (elements_run _ _ _ Hlb)).
  cbv zeta. rewrite <-fmap_app. fold (brightColors t).
  rewrite (bind_run _ _ _ _ _ (get_run _ _ _ "colors" Hr)), Hvc.
  rewrite (bind_run _ _ _ _ _ (keys_run _ _ _ Hlc)).
  set (ks := Object_keys (Store.of_jsval <$> colors t)).
  set (m' := for_of ks (soft_body (brightColors t)) (colors t)).
  set (h2 := <[lc := Store.Obj (Store.of_jsval <$> m')]> h1).
  assert (Hloop : Store.for_each ks
            (Store.soft_body (Store.VStr <$> brightColors t) (Store.VRef lc)) h1
            = Some ((), h2)).
  { apply (for_each_object lc (λ _, True)); [done| |done..].
    intros key m h' _ _ Hl. by apply soft_body_run. }
  rewrite (bind_run _ _ _ _ _ Hloop).
  assert (Hlen2 : length h2 = length h1) by apply length_insert.
  assert (H12 : ∀ l, l ≠ lc → h2 !! l = h1 !! l).
  { intros l Hl. by apply list_lookup_insert_ne. }
  assert (Hr2 : h2 !! r = Some (Store.Obj rprops)) by (rewrite H12 by lia; done).
  rewrite (bind_run _ _ _ _ _ (get_run _ _ _ "tokenColors" Hr2)), Hvt.
  assert (Hlt2 : h2 !! lt = Some (Store.Arr vts)) by (rewrite H12 by lia; done).
  rewrite (bind_run _ _ _ _ _ (elements_run _ _ _ Hlt2)).
  assert (Htok2 : tokens_in h2 at_ lt vts (tokenColors t)).
  { eapply tokens_in_agree; [done|]. intros l Hl. apply H12. lia. }
  destruct (soft_tokens_run (brightColors t) _ _ _ _ _ Htok2)
    as (h3 & Hrun3 & Htok3 & Hlen3 & H23).
  rewrite (bind_run _ _ _ _ _ Hrun3).
  rewrite (bind_run _ _ _ _ _ (alloc_run _ _)).
  assert (Hr3 : h3 !! r = Some (Store.Obj rprops)) by (rewrite H23 by lia; done).
  assert (Hr4 : (h3 ++ [Store.Arr vts]) !! r = Some (Store.Obj rprops))
    by by apply lookup_app_l_Some.
  rewrite (bind_run _ _ _ _ _ (set_run _ _ _ "tokenColors" (Store.VRef (length h3)) Hr4)).
  eexists. split; [reflexivity|].
  set (h5 := <[r := _]> (h3 ++ _)).
  assert (Hrlt : r < length h3) by by eapply lookup_lt_Some.
  assert (H35 : ∀ l, l ≠ r → l < length h3 → h5 !! l = h3 !! l).
  { intros l Hne Hlt'. unfold h5. rewrite list_lookup_insert_ne by done.
    by apply lookup_app_l. }
  exists r, (<["tokenColors" := Store.VRef (length h3)]> rprops).
  split; [done|]. split.
  { unfold h5. apply list_lookup_insert_eq. rewrite length_app. lia. }
  unfold prop in *. rewrite !lookup_insert_ne by done. rewrite lookup_insert_eq.
  rewrite Hvd, Hvc. simpl. split_and!.
  - eapply tree_dracula; [|exact Hdd]. eapply tree_agree; [exact Htd|].
    intros l Hl. rewrite H35, H23, H12 by lia. done.
  - exists lc. split; [done|]. rewrite H35, H23 by lia.
    unfold h2. rewrite list_lookup_insert_eq by (by eapply lookup_lt_Some).
    do 3 f_equal. unfold m', ks. apply (for_of_keys_fmap _ _ (λ _, soft_value (brightColors t))).
    apply soft_body_lookup.
  - exists (length h3), vts. split; [done|]. split.
    + unfold h5. rewrite list_lookup_insert_ne by lia. by apply list_lookup_middle.
    + eapply tokens_in_at, tokens_in_agree; [exact Htok3|].
      intros l Hl. apply H35; lia.
Qed.


End refinement.

Section refinement_hc.
Implicit Types (h : Store.heap) (t : Theme).

Lemma override_step_lookup key (m : gmap string jsval) k :
  override_step key m !! k =
  if decide (k = key)
  then (λ key v, match overrides !! key with Some x => Some x | None => v end) key (m !! key)
  else m !! k.
Proof.
  unfold override_step. destruct (overrides !! key) as [x|] eqn:Hx.
  - destruct (decide (k = key)) as [->|Hne].
    + by rewrite lookup_insert_eq.
    + by rewrite lookup_insert_ne.
  - by destruct (decide (k = key)) as [->|Hne].
Qed.

Lemma override_steps_assign (m : gmap string jsval) :
  for_of (Object_keys (Store.of_jsval <$> overrides)) override_step m
  = Object_assign m overrides.
Proof.
  apply map_eq. intros k.
  rewrite (for_of_local override_step _ override_step_lookup)
    by apply Object_keys_NoDup.
  rewrite Object_assign_lookup.
  destruct (overrides !! k) as [x|] eqn:Hx.
  - rewrite decide_True; [done|].
    apply elem_of_Object_keys. rewrite lookup_fmap, Hx. by eexists.
  - by destruct (decide _).
Qed.

Lemma assign_body_run n lc key (m : gmap string jsval) h :
  key ∈ Object_keys (Store.of_jsval <$> overrides) →
  h !! n = Some (Store.Obj (Store.of_jsval <$> overrides)) →
  h !! lc = Some (Store.Obj (Store.of_jsval <$> m)) →
  Store.bind (Store.get (Store.VRef n) key)
             (λ x, Store.set (Store.VRef lc) key x) h
  = Some ((), <[lc := Store.Obj (Store.of_jsval <$> override_step key m)]> h).
Proof.
  intros Hin Hn Hl.
  apply elem_of_Object_keys in Hin. rewrite lookup_fmap in Hin.
  rewrite (bind_run _ _ _ _ _ (get_run _ _ _ key Hn)).
  rewrite (set_run _ _ _ _ _ Hl).
  unfold prop, override_step. rewrite lookup_fmap.
  destruct (overrides !! key) as [x|]; [|by destruct Hin].
  cbn [fmap option_fmap option_map default]. by rewrite fmap_insert.
Qed.

Lemma transformHighContrast_run theme h hc h1 lo t :
  Store.JSON_clone theme h = Some (hc, h1) → theme_in h1 lo hc t →
  ∃ h', Store.transformHighContrast theme h = Some (hc, h') ∧
        theme_at h' hc (transformHighContrast t).
Proof.
  intros Hclone (r & rprops & vd & jd & ad & bd & lc & ac & lt & vts & at_ & -> & Hr &
                 Hvd & Htd & Hdd & Hvc & Hlc & Hvt & Hlt & Htok & Hb).
  destruct Hb as (? & ? & ? & ? & ? & ? & ? & Hdc & Hdt & Hct).
  apply tokens_in_le in Htok as Hle_t.
  unfold Store.transformHighContrast.
  rewrite (bind_run _ _ _ _ _ Hclone).
  rewrite (bind_run _ _ _ _ _ (get_run _ _ _ "colors" Hr)), Hvc.
  rewrite (bind_run _ _ _ _ _ (keys_run _ _ _ Hlc)).
  set (m1 := for_of (Object_keys (Store.of_jsval <$> colors t)) sweep_body (colors t)).
  set (h2 := <[lc := Store.Obj (Store.of_jsval <$> m1)]> h1).
  assert (Hloop : Store.for_each (Object_keys (Store.of_jsval <$> colors t))
                    (Store.sweep_body (Store.VRef lc)) h1 = Some ((), h2)).
  { apply (for_each_object lc (λ _, True)); [done| |done..].
    intros key m h' _ _ Hl. by apply sweep_body_run. }
  rewrite (bind_run _ _ _ _ _ Hloop).
  assert (Hlclt : lc < length h1) by by eapply lookup_lt_Some.
  assert (Hlen2 : length h2 = length h1) by apply length_insert.
  assert (H12 : ∀ l, l ≠ lc → h2 !! l = h1 !! l).
  { intros l Hl. by apply list_lookup_insert_ne. }
  rewrite (bind_run _ _ _ _ _ (alloc_run _ _)).
  set (table := Store.Obj (Store.of_jsval <$> overrides)).
  set (h3 := h2 ++ [table]).
  assert (Hn3 : h3 !! length h2 = Some table) by by apply list_lookup_middle.
  assert (Hlc3 : h3 !! lc = Some (Store.Obj (Store.of_jsval <$> m1))).
  { apply lookup_app_l_Some. unfold h2. by apply list_lookup_insert_eq. }
  set (m2 := for_of (Object_keys (Store.of_jsval <$> overrides)) override_step m1).
  set (h4 := <[lc := Store.Obj (Store.of_jsval <$> m2)]> h3).
  assert (Hassign : Store.assign (Store.VRef lc) (Store.VRef (length h2)) h3
                    = Some ((), h4)).
  { unfold Store.assign. rewrite (bind_run _ _ _ _ _ (keys_run _ _ _ Hn3)).
    apply (for_each_object lc (λ h', h' !! length h2 = Some table)).
    - intros h' o Hh'. rewrite list_lookup_insert_ne by lia. done.
    - intros key m h' Hin Hh' Hl. by apply assign_body_run.
    - done.
    - done. }
  rewrite (bind_run _ _ _ _ _ Hassign).
  eexists. split; [reflexivity|].
  assert (H14 : ∀ l, l ≠ lc → l < length h1 → h4 !! l = h1 !! l).
  { intros l Hne Hlt'. unfold h4, h3. rewrite list_lookup_insert_ne by done.
    rewrite lookup_app_l by lia. by apply H12. }
  assert (Hrlt : r < length h1) by by eapply lookup_lt_Some.
  exists r, rprops. split; [done|]. split; [rewrite H14 by lia; done|].
  rewrite Hvd, Hvc, Hvt. split_and!.
  - eapply tree_dracula; [|exact Hdd]. eapply tree_agree; [exact Htd|].
    intros l Hl. apply H14; lia.
  - exists lc. split; [done|]. unfold h4.
    rewrite list_lookup_insert_eq by (unfold h3; rewrite length_app; lia).
    do 3 f_equal. unfold m2. rewrite override_steps_assign.
    unfold transformHighContrast, JSON_clone, sweep. cbn [colors].
    f_equal. unfold m1.
    apply (for_of_keys_fmap _ _ sweep_value), sweep_body_lookup.
  - exists lt, vts. split; [done|]. split; [rewrite H14 by lia; done|].
    eapply tokens_in_at, tokens_in_agree; [exact Htok|].
    intros l Hl. apply H14; lia.
Qed.

End refinement_hc.


(** The soft transform over the store computes the soft transform: on an
    input that prints to a text reading as the theme [t] it returns, and its
    result denotes [transformSoft t]. *)
Lemma transformSoft_refines `{TinyColor} (theme : Store.val) (h : Store.heap) (t : Theme) :
  reads_as h theme t →
  ∃ out h', Store.transformSoft theme h = Some (out, h') ∧
            theme_at h' out (transformSoft t).
Proof.
  intros (text & Hs & Hd).
  destruct (JSON_clone_layout theme h text t Hs Hd) as (soft & h1 & Hclone & Hin).
  destruct (transformSoft_run theme h soft h1 _ t Hclone Hin) as (h' & Hrun & Hat).
  by exists soft, h'.
Qed.

(** Likewise for the high-contrast transform. *)
Lemma transformHighContrast_refines (theme : Store.val) (h : Store.heap) (t : Theme) :
  reads_as h theme t →
  ∃ out h', Store.transformHighContrast theme h = Some (out, h') ∧
            theme_at h' out (transformHighContrast t).
Proof.
  intros (text & Hs & Hd).
  destruct (JSON_clone_layout theme h text t Hs Hd) as (hc & h1 & Hclone & Hin).
  destruct (transformHighContrast_run theme h hc h1 _ t Hclone Hin) as (h' & Hrun & Hat).
  by exists hc, h'.
Qed.

(** * Post-load sanitation *)

(** C5. After sanitation the base colour mapping holds no key whose loaded
    value was falsy ([null], [undefined] or the empty string), and every key
    with a truthy value keeps that value. *)
Theorem sanitize_drops_exactly_falsy `{TinyColor} (loaded : Theme) (key : string) :
  (truthy (colors loaded !! key) = false →
     colors (v_base (generate loaded)) !! key = None) ∧
  (truthy (colors loaded !! key) = true →
     colors (v_base (generate loaded)) !! key = colors loaded !! key).
Proof.
  unfold generate, sanitize. cbn [v_base colors].
  rewrite sanitize_colors_lookup. unfold sanitize_value.
  split; intros ->; done.
Qed.

Lemma sanitize_drops_exactly_falsy_witness :
  (truthy (colors example_loaded !! "tab.hoverBackground") = false ∧
   colors (v_base (generate (H := tagging_tinycolor) example_loaded))
     !! "tab.hoverBackground" = None) ∧
  (truthy (colors example_loaded !! "editor.background") = true ∧
   colors (v_base (generate (H := tagging_tinycolor) example_loaded))
     !! "editor.background" = Some (Str "#282A36")).
Proof.
  split; (split; [vm_compute; reflexivity|]).
  - apply (sanitize_drops_exactly_falsy (H := tagging_tinycolor)
             example_loaded "tab.hoverBackground").
    vm_compute; reflexivity.
  - apply (proj2 (sanitize_drops_exactly_falsy (H := tagging_tinycolor)
             example_loaded "editor.background")).
    vm_compute; reflexivity.
Defined.

(** * High-contrast transform *)

(** C1. The override table is authoritative: a key listed in the table is
    mapped to the table's value by the high-contrast transform, whatever the
    sweep produced for it and whatever the input theme held. *)
Theorem overrides_are_authoritative (theme : Theme) (phase1 : gmap string jsval)
    (key : string) (v : jsval) :
  (key, v) ∈ overrides_literal →
  Object_assign phase1 overrides !! key = Some v ∧
  colors (transformHighContrast theme) !! key = Some v.
Proof.
  intros Hin%overrides_lookup. split.
  - by rewrite Object_assign_lookup, Hin.
  - by rewrite transformHighContrast_colors_lookup, Hin.
Qed.

Lemma overrides_are_authoritative_witness :
  ("scrollbarSlider.background", Str "#FFFFFF60") ∈ overrides_literal ∧
  Object_assign (sweep (colors example_loaded)) overrides
    !! "scrollbarSlider.background" = Some (Str "#FFFFFF60") ∧
  colors (transformHighContrast example_loaded)
    !! "scrollbarSlider.background" = Some (Str "#FFFFFF60").
Proof.
  assert (Hin : ("scrollbarSlider.background", Str "#FFFFFF60") ∈ overrides_literal).
  { apply (bool_decide_unpack _). vm_compute. reflexivity. }
  split; [exact Hin|].
  exact (overrides_are_authoritative example_loaded (sweep (colors example_loaded))
           "scrollbarSlider.background" (Str "#FFFFFF60") Hin).
Defined.

(** C2. In the sweep, a key of the input colour mapping that is listed in
    [bgKeys] or ends with [background] or [Background], and that contains
    none of the exemption substrings, holds [#000000] after phase 1; when the
    override table does not list it, it holds [#000000] in the final
    high-contrast mapping. *)
Theorem sweep_blackens_background_keys (theme : Theme) (key : string) :
  is_Some (colors theme !! key) →
  (key ∈ bgKeys ∨ (∃ p, key = p +:+ "background") ∨ (∃ p, key = p +:+ "Background")) →
  (∀ sub, sub ∈ exemption_substrings → ¬ ∃ before after, key = before +:+ sub +:+ after) →
  sweep (colors theme) !! key = Some (Str "#000000") ∧
  (key ∉ overrides_literal.*1 →
   colors (transformHighContrast theme) !! key = Some (Str "#000000")).
Proof.
  intros [v Hv] Hbg%background_role_true Hex.
  assert (Hex' : exempted key = false).
  { apply exempted_false. intros sub Hin.
    destruct (JsString.includes key sub) eqn:Hinc; [|done].
    destruct (Hex sub Hin). by apply includes_spec. }
  assert (Hsweep : sweep (colors theme) !! key = Some (Str "#000000")).
  { rewrite sweep_lookup, Hv. unfold sweep_value. by rewrite Hbg, Hex'. }
  split; [done|]. intros Hnot.
  rewrite transformHighContrast_colors_lookup.
  unfold overrides. by rewrite object_literal_lookup_None.
Qed.

Lemma sweep_blackens_background_keys_witness :
  sweep (colors example_loaded) !! "minimap.background" = Some (Str "#000000") ∧
  colors (transformHighContrast example_loaded) !! "minimap.background"
    = Some (Str "#000000").
Proof.
  assert (Hno : "minimap.background" ∉ overrides_literal.*1).
  { apply (bool_decide_unpack _). vm_compute. reflexivity. }
  destruct (sweep_blackens_background_keys example_loaded "minimap.background")
    as [H1 H2].
  - vm_compute. eauto.
  - right. left. by exists "minimap.".
  - intros sub Hin Hex. apply includes_spec in Hex.
    unfold exemption_substrings in Hin.
    repeat (apply elem_of_cons in Hin as [->|Hin]; [vm_compute in Hex; discriminate|]).
    by apply elem_of_nil in Hin.
  - split; [exact H1 | exact (H2 Hno)].
Defined.

(** C9. The override pass inserts the table's keys that the input lacks: a
    key of the table that is absent from the sanitised base colour mapping is
    present, with the table's value, in the high-contrast output. *)
Theorem overrides_insert_missing_keys `{TinyColor} (loaded : Theme)
    (key : string) (v : jsval) :
  (key, v) ∈ overrides_literal →
  colors (v_base (generate loaded)) !! key = None →
  colors (v_hc (generate loaded)) !! key = Some v ∧
  (key ∉ dom (colors (v_base (generate loaded)))) ∧
  (key ∈ dom (colors (v_hc (generate loaded)))).
Proof.
  intros Hin Hnone.
  assert (Hhc : colors (v_hc (generate loaded)) !! key = Some v).
  { unfold generate. cbn [v_hc]. rewrite transformHighContrast_colors_lookup.
    by rewrite (overrides_lookup _ _ Hin). }
  split; [done|]. split.
  - by apply not_elem_of_dom.
  - apply elem_of_dom. by rewrite Hhc.
Qed.

Lemma overrides_insert_missing_keys_witness :
  ("focusBorder", Str "#FFFFFF") ∈ overrides_literal ∧
  colors (v_base (generate (H := tagging_tinycolor) example_loaded)) !! "focusBorder" = None ∧
  colors (v_hc (generate (H := tagging_tinycolor) example_loaded)) !! "focusBorder"
    = Some (Str "#FFFFFF").
Proof.
  assert (Hin : ("focusBorder", Str "#FFFFFF") ∈ overrides_literal) by (by left).
  assert (Hnone : colors (v_base (generate (H := tagging_tinycolor) example_loaded))
                    !! "focusBorder" = None) by (vm_compute; reflexivity).
  split; [exact Hin|]. split; [exact Hnone|].
  exact (proj1 (overrides_insert_missing_keys (H := tagging_tinycolor)
                  example_loaded "focusBorder" (Str "#FFFFFF") Hin Hnone)).
Defined.

(** * Soft transform *)

Lemma soft_token_lookup `{TinyColor} bright (rules : list TokenColor) i :
  (soft_token bright <$> rules) !! i = soft_token bright <$> rules !! i.
Proof. apply list_lookup_fmap. Qed.



(** C4. A key of the base colour mapping whose value is not a member of the
    bright palette keeps its value in the soft variant; in particular, when
    the bright palette holds bare hex strings only, a value carrying an alpha
    suffix is no member and is left as it is. *)
Theorem soft_keeps_other_colors `{TinyColor} (theme : Theme) (key : string) :
  ((∀ c, colors theme !! key = Some (Str c) →
         c ∉ (ansi (dracula theme) ++ brightOther (dracula theme))%list) →
   colors (transformSoft theme) !! key = colors theme !! key) ∧
  (∀ c alpha,
     Forall (λ b, bare_hex b = true)
            (ansi (dracula theme) ++ brightOther (dracula theme))%list →
     bare_hex c = true → alpha ≠ "" →
     colors theme !! key = Some (Str (c +:+ alpha)) →
     ((c +:+ alpha) ∉ (ansi (dracula theme) ++ brightOther (dracula theme))%list) ∧
     colors (transformSoft theme) !! key = Some (Str (c +:+ alpha))).
Proof.
  assert (Hkeep : (∀ c, colors theme !! key = Some (Str c) →
                        c ∉ (ansi (dracula theme) ++ brightOther (dracula theme))%list) →
                  colors (transformSoft theme) !! key = colors theme !! key).
  { intros Hnot. rewrite transformSoft_colors_lookup. unfold soft_value.
    destruct (colors theme !! key) as [[|c]|] eqn:Hv; try done.
    rewrite bool_decide_false; [done|]. by apply Hnot. }
  split; [exact Hkeep|].
  intros c alpha Hbare Hc Halpha Hv.
  assert (Hnot : (c +:+ alpha) ∉ (ansi (dracula theme) ++ brightOther (dracula theme))%list).
  { intros Hin. rewrite Forall_forall in Hbare.
    apply Hbare, bare_hex_length in Hin. apply bare_hex_length in Hc.
    rewrite string_length_app, Hc in Hin.
    destruct alpha; [done | simpl in Hin; lia]. }
  split; [exact Hnot|].
  rewrite Hkeep, Hv; [done|]. intros c' Hv'. rewrite Hv in Hv'. by injection Hv' as <-.
Qed.

Lemma soft_keeps_other_colors_witness :
  colors (transformSoft (H := tagging_tinycolor) example_loaded) !! "editor.background"
    = Some (Str "#282A36") ∧
  colors (transformSoft (H := tagging_tinycolor) example_loaded) !! "editor.findMatchBackground"
    = Some (Str "#FF555580").
Proof.
  split.
  - apply (proj1 (soft_keeps_other_colors (H := tagging_tinycolor)
                    example_loaded "editor.background")).
    intros c Hc. vm_compute in Hc. injection Hc as <-.
    apply (bool_decide_unpack _). vm_compute. reflexivity.
  - apply (proj2 (soft_keeps_other_colors (H := tagging_tinycolor)
                    example_loaded "editor.findMatchBackground") "#FF5555" "80").
    + apply (bool_decide_unpack _). vm_compute. reflexivity.
    + vm_compute. reflexivity.
    + discriminate.
    + vm_compute. reflexivity.
Defined.

(** * The transforms do not touch their input *)

(** C6. Neither transform mutates its input: every object of the store the
    transform started in is unchanged when it returns, so the input theme
    prints to the same JSON text before and after; and the returned theme is
    made of objects allocated by the transform only, none of which the input
    reaches.  Both transforms return on every input that prints to a text
    reading as a theme. *)
Theorem transforms_do_not_mutate_input `{TinyColor}
    (theme : Store.val) (h : Store.heap) :
  (∀ out h',
     Store.transformSoft theme h = Some (out, h') ∨
     Store.transformHighContrast theme h = Some (out, h') →
     h `prefix_of` h' ∧
     (∃ text, Store.snapshot h theme text ∧ Store.snapshot h' theme text) ∧
     (∀ l, Store.reachable h' out l → length h ≤ l ∧ ¬ Store.reachable h' theme l)) ∧
  (∀ t, reads_as h theme t →
     is_Some (Store.transformSoft theme h) ∧
     is_Some (Store.transformHighContrast theme h)).
Proof.
  split.
  - intros out h' [Hrun|Hrun].
    + eapply (cloning_transform_frame Store.transformSoft);
        [reflexivity | apply @preserves_transformSoft | exact Hrun].
    + eapply (cloning_transform_frame Store.transformHighContrast);
        [reflexivity | apply preserves_transformHighContrast | exact Hrun].
  - intros t Hreads. split.
    + destruct (transformSoft_refines theme h t Hreads) as (out & h' & -> & _). by eexists.
    + destruct (transformHighContrast_refines theme h t Hreads) as (out & h' & -> & _).
      by eexists.
Qed.

Lemma example_store_reads_as :
  reads_as example_store.2 example_store.1 (sanitize example_loaded).
Proof.
  eexists. split.
  - vm_compute. reflexivity.
  - vm_compute. reflexivity.
Qed.

Lemma transforms_do_not_mutate_input_witness :
  reads_as example_store.2 example_store.1 (sanitize example_loaded) ∧
  (∃ out h',
     Store.transformSoft (H := tagging_tinycolor) example_store.1 example_store.2
       = Some (out, h') ∧
     example_store.2 `prefix_of` h' ∧
     ∀ l, Store.reachable h' out l → length example_store.2 ≤ l) ∧
  (∃ out h',
     Store.transformHighContrast example_store.1 example_store.2 = Some (out, h') ∧
     example_store.2 `prefix_of` h' ∧
     ∀ l, Store.reachable h' out l → length example_store.2 ≤ l).
Proof.
  pose proof (transforms_do_not_mutate_input (H := tagging_tinycolor)
                example_store.1 example_store.2) as [Hframe Hreturns].
  destruct (Hreturns _ example_store_reads_as) as [[[out1 h1] Hrun1] [[out2 h2] Hrun2]].
  split; [exact example_store_reads_as|]. split.
  - exists out1, h1. split; [exact Hrun1|].
    destruct (Hframe out1 h1 (or_introl Hrun1)) as (Hpre & _ & Hsep).
    split; [exact Hpre|]. intros l Hl. exact (proj1 (Hsep l Hl)).
  - exists out2, h2. split; [exact Hrun2|].
    destruct (Hframe out2 h2 (or_intror Hrun2)) as (Hpre & _ & Hsep).
    split; [exact Hpre|]. intros l Hl. exact (proj1 (Hsep l Hl)).
Defined.

(** * The high-contrast transform rewrites the colour mapping only *)

(** C10. The token colour rules and the palette groups of the high-contrast
    output are those of the input: they are left as they are by the transform
    on theme values, and over the store the returned object denotes a theme
    with the palette and the token colour rules the input reads as. *)
Theorem transformHighContrast_keeps_tokens_and_palette (t : Theme) :
  (tokenColors (transformHighContrast t) = tokenColors t ∧
   dracula (transformHighContrast t) = dracula t) ∧
  (∀ (theme : Store.val) (h : Store.heap),
     reads_as h theme t →
     ∃ out h',
       Store.transformHighContrast theme h = Some (out, h') ∧
       theme_at h' out {| dracula := dracula t;
                          colors := colors (transformHighContrast t);
                          tokenColors := tokenColors t |}).
Proof.
  split; [by split|]. intros theme h Hreads.
  destruct (transformHighContrast_refines theme h t Hreads) as (out & h' & Hrun & Hat).
  by exists out, h'.
Qed.

Lemma transformHighContrast_keeps_tokens_and_palette_witness :
  ∃ out h',
    Store.transformHighContrast example_store.1 example_store.2 = Some (out, h') ∧
    theme_at h' out {| dracula := example_dracula;
                       colors := colors (transformHighContrast (sanitize example_loaded));
                       tokenColors := example_tokens |}.
Proof.
  exact (proj2 (transformHighContrast_keeps_tokens_and_palette (sanitize example_loaded))
           example_store.1 example_store.2 example_store_reads_as).
Defined.

(** * Loading an [!alpha] sequence *)



(** * Further properties of the transforms on theme values *)

Lemma exempted_true (key : string) :
  exempted key = true ↔
  ∃ sub, sub ∈ exemption_substrings ∧ ∃ before after, key = before +:+ sub +:+ after.
Proof.
  split.
  - intros Hex. destruct (decide (Exists (λ sub, JsString.includes key sub = true)
                                         exemption_substrings)) as [Hsome|Hnone].
    + apply Exists_exists in Hsome as (sub & Hin & Hinc).
      exists sub. split; [done|]. by apply includes_spec.
    + assert (exempted key = false); [|congruence].
      apply exempted_false. intros sub Hin.
      destruct (JsString.includes key sub) eqn:Hinc; [|done].
      destruct Hnone. apply Exists_exists. eauto.
  - intros (sub & Hin & Hocc%includes_spec).
    destruct (exempted key) eqn:Hex; [done|].
    rewrite exempted_false in Hex. rewrite (Hex sub Hin) in Hocc. done.
Qed.

Lemma sweep_value_is_Some key (v : jsval) : is_Some (sweep_value key (Some v)).
Proof. unfold sweep_value. destruct (_ && _); by eexists. Qed.

Lemma sweep_value_idemp key (v : option jsval) :
  sweep_value key (sweep_value key v) = sweep_value key v.
Proof. unfold sweep_value. by destruct (_ && _). Qed.

Lemma soft_value_is_Some `{TinyColor} bright (v : option jsval) :
  is_Some (soft_value bright v) ↔ is_Some v.
Proof.
  unfold soft_value. destruct v as [[|c]|]; try done.
  destruct (bool_decide _); split; intros _; by eexists.
Qed.

(** X1. The soft transform neither adds nor removes a key of the colour
    mapping. *)
Theorem soft_keeps_the_key_set `{TinyColor} (theme : Theme) :
  dom (colors (transformSoft theme)) = dom (colors theme).
Proof.
  apply set_eq. intros key. rewrite !elem_of_dom, transformSoft_colors_lookup.
  apply soft_value_is_Some.
Qed.

(** X2. The soft transform returns as many token colour rules as it was
    given, in the same order, and a rule whose foreground is absent or is no
    member of the bright palette is returned as it is. *)
Theorem soft_keeps_other_token_rules `{TinyColor} (theme : Theme) :
  length (tokenColors (transformSoft theme)) = length (tokenColors theme) ∧
  (∀ i rule,
     tokenColors theme !! i = Some rule →
     (∀ c, foreground (settings rule) = Some c →
           c ∉ (ansi (dracula theme) ++ brightOther (dracula theme))%list) →
     tokenColors (transformSoft theme) !! i = Some rule).
Proof.
  unfold transformSoft, JSON_clone. cbn [tokenColors]. split.
  - apply length_fmap.
  - intros i rule Hrule Hnot. rewrite soft_token_lookup, Hrule. simpl. f_equal.
    unfold soft_token. destruct (foreground (settings rule)) as [c|]; [|done].
    rewrite bool_decide_false; [done|]. by apply Hnot.
Qed.

Lemma soft_keeps_other_token_rules_witness :
  tokenColors (transformSoft (H := tagging_tinycolor) example_loaded) !! 1
  = example_tokens !! 1.
Proof.
  apply (proj2 (soft_keeps_other_token_rules (H := tagging_tinycolor) example_loaded) 1).
  - reflexivity.
  - intros c Hc. injection Hc as <-.
    apply (bool_decide_unpack _). vm_compute. reflexivity.
Defined.

(** X3. When no colour value and no token foreground is a member of the
    bright palette, as with an empty palette, the soft variant is the theme
    it was given. *)
Theorem soft_is_identity_without_bright_colors `{TinyColor} (theme : Theme) :
  (∀ key c, colors theme !! key = Some (Str c) → c ∉ brightColors theme) →
  (∀ rule c, rule ∈ tokenColors theme → foreground (settings rule) = Some c →
             c ∉ brightColors theme) →
  transformSoft theme = theme.
Proof.
  intros Hcolors Htokens.
  assert (Hc : colors (transformSoft theme) = colors theme).
  { apply map_eq. intros key. rewrite transformSoft_colors_lookup. unfold soft_value.
    destruct (colors theme !! key) as [[|c]|] eqn:Hv; try done.
    rewrite bool_decide_false; [done|]. by eapply Hcolors. }
  assert (Ht : tokenColors (transformSoft theme) = tokenColors theme).
  { unfold transformSoft, JSON_clone. cbn [tokenColors].
    rewrite <-(list_fmap_id (tokenColors theme)) at 2.
    apply list_fmap_ext. intros i rule Hrule. unfold soft_token. simpl.
    destruct (foreground (settings rule)) as [c|] eqn:Hfg; [|done].
    rewrite bool_decide_false; [done|].
    eapply Htokens; [|done]. by eapply list_elem_of_lookup_2. }
  destruct theme as [d c tk]. unfold transformSoft, JSON_clone in *. simpl in *.
  by rewrite Hc, Ht.
Qed.

Lemma soft_is_identity_without_bright_colors_witness :
  transformSoft (H := tagging_tinycolor) example_plain = example_plain.
Proof.
  apply (soft_is_identity_without_bright_colors (H := tagging_tinycolor)).
  - intros key c _ Hin. by apply elem_of_nil in Hin.
  - intros rule c _ _ Hin. by apply elem_of_nil in Hin.
Defined.

(** X4. The sweep leaves every key that contains an exemption substring, and
    every key that is neither listed in [bgKeys] nor ends with [background]
    or [Background], at the value it had; and it neither adds nor removes a
    key. *)
Theorem sweep_keeps_exempt_and_unrelated_keys (colors : gmap string jsval) :
  (∀ key,
     (∃ sub, sub ∈ exemption_substrings ∧
             ∃ before after, key = before +:+ sub +:+ after) ∨
     ((key ∉ bgKeys) ∧ (¬ ∃ p, key = p +:+ "background") ∧
      (¬ ∃ p, key = p +:+ "Background")) →
     sweep colors !! key = colors !! key) ∧
  dom (sweep colors) = dom colors.
Proof.
  split.
  - intros key Hkeep. rewrite sweep_lookup.
    destruct (colors !! key) as [v|]; [|done]. unfold sweep_value.
    destruct Hkeep as [Hex%exempted_true | (Hbg & Hlow & Hup)].
    + rewrite Hex. by rewrite andb_false_r.
    + destruct (background_role key) eqn:Hrole; [|done].
      apply background_role_true in Hrole as [?|[?|?]]; done.
  - apply set_eq. intros key. rewrite !elem_of_dom, sweep_lookup.
    destruct (colors !! key) as [v|]; [|done].
    split; intros _; [by eexists | apply sweep_value_is_Some].
Qed.

Lemma sweep_keeps_exempt_and_unrelated_keys_witness :
  sweep (colors example_loaded) !! "button.background" = Some (Str "#6272A4") ∧
  sweep (colors example_loaded) !! "statusBar.foreground" = Some (Str "#FF5555").
Proof.
  destruct (sweep_keeps_exempt_and_unrelated_keys (colors example_loaded)) as [Hkeep _].
  split.
  - apply (Hkeep "button.background"). left. exists "button".
    split; [apply (bool_decide_unpack _); vm_compute; reflexivity|].
    by exists "", ".background".
  - apply (Hkeep "statusBar.foreground"). right. split; [|split].
    + apply (bool_decide_unpack _). vm_compute. reflexivity.
    + intros Hend%endsWith_spec. vm_compute in Hend. discriminate.
    + intros Hend%endsWith_spec. vm_compute in Hend. discriminate.
Defined.

(** X5. The keys of the high-contrast colour mapping are the keys of the
    input mapping together with the keys of the override table. *)
Theorem hc_key_set (theme : Theme) (key : string) :
  key ∈ dom (colors (transformHighContrast theme)) ↔
  key ∈ dom (colors theme) ∨ key ∈ overrides_literal.*1.
Proof.
  rewrite !elem_of_dom, transformHighContrast_colors_lookup, sweep_lookup.
  destruct (decide (key ∈ overrides_literal.*1)) as [Hin|Hnin].
  - apply list_elem_of_fmap in Hin as Hex. destruct Hex as ([k v] & -> & Hkv).
    cbn [fst]. rewrite (overrides_lookup _ _ Hkv). split; [by right | by eexists].
  - unfold overrides. rewrite object_literal_lookup_None by done.
    destruct (colors theme !! key) as [v|].
    + split; [by left | intros _; apply sweep_value_is_Some].
    + split; [by intros [? ?] | intros [[? ?]|?]; done].
Qed.

(** X6. The high-contrast transform is idempotent: applied to its own
    output it returns that output. *)
Theorem hc_is_idempotent (theme : Theme) :
  transformHighContrast (transformHighContrast theme) = transformHighContrast theme.
Proof.
  assert (Hc : colors (transformHighContrast (transformHighContrast theme))
               = colors (transformHighContrast theme)).
  { apply map_eq. intros key.
    rewrite (transformHighContrast_colors_lookup (transformHighContrast theme)).
    rewrite sweep_lookup, !transformHighContrast_colors_lookup.
    destruct (overrides !! key) as [v|]; [done|].
    rewrite sweep_lookup. destruct (colors theme !! key) as [v|]; [|done].
    destruct (sweep_value_is_Some key v) as [v' Hv']. rewrite Hv', <-Hv'.
    apply sweep_value_idemp. }
  unfold transformHighContrast, JSON_clone in *. cbn [colors dracula tokenColors] in *.
  by rewrite Hc.
Qed.

Lemma sanitize_values_nonempty (loaded : Theme) key v :
  colors (sanitize loaded) !! key = Some v → ∃ s, v = Str s ∧ s ≠ "".
Proof.
  unfold sanitize. cbn [colors].
  rewrite sanitize_colors_lookup. unfold sanitize_value.
  destruct (colors loaded !! key) as [[|s]|]; simpl; try done.
  case_bool_decide; simpl; [done|]. intros [= <-]. eauto.
Qed.

(** X7. Sanitation is idempotent: run on a theme it has already cleaned, the
    delete loop removes nothing. *)
Theorem sanitize_is_idempotent (loaded : Theme) :
  sanitize (sanitize loaded) = sanitize loaded.
Proof.
  unfold sanitize at 1 3. cbn [colors dracula tokenColors].
  change (sanitize_colors (colors loaded)) with (colors (sanitize loaded)).
  f_equal.
  apply map_eq. intros key. rewrite sanitize_colors_lookup.
  unfold sanitize_value.
  destruct (colors (sanitize loaded) !! key) as [v|] eqn:Hv; [|done].
  destruct (sanitize_values_nonempty loaded key v Hv) as (s & -> & Hs). simpl.
  by rewrite bool_decide_false.
Qed.

Lemma object_literal_elem_of {V} (l : list (string * V)) k v :
  object_literal l !! k = Some v → (k, v) ∈ l.
Proof.
  unfold object_literal. rewrite for_of_insert_lookup.
  destruct (last _) as [[k' v']|] eqn:Hl; [|done].
  apply last_Some_elem_of, list_elem_of_filter in Hl as [Hk Hin].
  simpl in Hk. subst k'. by intros [= <-].
Qed.

Lemma overrides_values_nonempty key v :
  overrides !! key = Some v → nonempty_string v = true.
Proof.
  assert (Hall : Forall (λ kv, nonempty_string kv.2 = true) overrides_literal).
  { apply (bool_decide_unpack _). vm_compute. reflexivity. }
  intros Hin%object_literal_elem_of.
  by apply (proj1 (Forall_forall _ _) Hall (key, v)).
Qed.

Lemma nonempty_string_spec v : nonempty_string v = true ↔ ∃ s, v = Str s ∧ s ≠ "".
Proof.
  destruct v as [|s]; simpl.
  - split; [done | by intros (? & ? & ?)].
  - rewrite negb_true_iff, bool_decide_eq_false. split.
    + intros Hs. by exists s.
    + by intros (? & [= <-] & ?).
Qed.

(** X8. No variant the generator returns holds a [null] colour: every value
    of the base mapping and of the high-contrast mapping is a non-empty
    string, every value of the soft mapping is a string, and the soft mapping
    has the keys of the base mapping. *)
Theorem variants_hold_no_null `{TinyColor} (loaded : Theme) :
  (∀ key v, colors (v_base (generate loaded)) !! key = Some v →
            ∃ s, v = Str s ∧ s ≠ "") ∧
  (∀ key v, colors (v_soft (generate loaded)) !! key = Some v → ∃ s, v = Str s) ∧
  (∀ key v, colors (v_hc (generate loaded)) !! key = Some v →
            ∃ s, v = Str s ∧ s ≠ "") ∧
  dom (colors (v_soft (generate loaded))) = dom (colors (v_base (generate loaded))).
Proof.
  unfold generate. cbn [v_base v_soft v_hc].
  pose proof (sanitize_values_nonempty loaded) as Hbase.
  split; [exact Hbase|]. split; [|split].
  - intros key v. rewrite transformSoft_colors_lookup. unfold soft_value.
    destruct (colors (sanitize loaded) !! key) as [v0|] eqn:Hv0; [|done].
    destruct (Hbase key v0 Hv0) as (s & -> & _).
    destruct (bool_decide _); intros [= <-]; eauto.
  - intros key v. rewrite transformHighContrast_colors_lookup.
    destruct (overrides !! key) as [v0|] eqn:Hv0.
    + intros [= <-]. by apply nonempty_string_spec, (overrides_values_nonempty key).
    + rewrite sweep_lookup.
      destruct (colors (sanitize loaded) !! key) as [v1|] eqn:Hv1; [|done].
      unfold sweep_value. destruct (_ && _); intros [= <-].
      * exists "#000000". split; [reflexivity | discriminate].
      * exact (Hbase key v1 Hv1).
  - apply set_eq. intros key. rewrite !elem_of_dom, transformSoft_colors_lookup.
    apply soft_value_is_Some.
Qed.

Lemma variants_hold_no_null_witness :
  ∃ s, colors (v_hc (generate (H := tagging_tinycolor) example_loaded))
         !! "editor.background" = Some (Str s) ∧ s ≠ "".
Proof.
  destruct (variants_hold_no_null (H := tagging_tinycolor) example_loaded)
    as (_ & _ & Hhc & _).
  destruct (Hhc "editor.background" (Str "#000000")) as (s & Hs & Hne).
  - vm_compute. reflexivity.
  - exists s. injection Hs as <-. split; [vm_compute; reflexivity | exact Hne].
Defined.

(** X16. The high-contrast transform invents no colour: a value of its
    colour mapping is the override the table lists for the key; or, at a key
    the table does not list, it is [#000000], the key being a background key
    of the input without exemption, or it is the value the input has there. *)
Theorem hc_values_come_from (theme : Theme) (key : string) (v : jsval) :
  colors (transformHighContrast theme) !! key = Some v →
  overrides !! key = Some v ∨
  (overrides !! key = None ∧
   ((v = Str "#000000" ∧ is_Some (colors theme !! key) ∧
     background_role key = true ∧ exempted key = false) ∨
    colors theme !! key = Some v)).
Proof.
  rewrite transformHighContrast_colors_lookup.
  destruct (overrides !! key) as [x|]; [by left|]. intros Hv. right. split; [done|].
  rewrite sweep_lookup in Hv. destruct (colors theme !! key) as [c|]; [|done].
  unfold sweep_value in Hv.
  destruct (background_role key) eqn:Hrole, (exempted key) eqn:Hex; simpl in Hv;
    try (by right).
  left. by injection Hv as <-.
Qed.

Lemma hc_values_come_from_witness :
  background_role "editor.findMatchBackground" = true ∧
  exempted "editor.findMatchBackground" = false.
Proof.
  destruct (hc_values_come_from (sanitize example_loaded) "editor.findMatchBackground"
              (Str "#000000")) as [Hover | [_ [(_ & _ & Hrole & Hex) | Hin]]].
  - vm_compute. reflexivity.
  - vm_compute in Hover. discriminate Hover.
  - split; [exact Hrole | exact Hex].
  - vm_compute in Hin. discriminate Hin.
Defined.

(** * More on the store: copies, failures and the generator *)

Section store_extras.
Import Store.
Implicit Types (h : heap) (v : val) (l : loc).

(** More fuel prints the same text. *)
Lemma stringify_fuel_mono fuel fuel' h v text :
  fuel ≤ fuel' → stringify fuel h v = Some text → stringify fuel' h v = Some text.
Proof.
  revert fuel' v text. induction fuel as [|fuel IH]; intros fuel' v text Hle; [done|].
  destruct fuel' as [|fuel']; [lia|].
  simpl. destruct v as [| | |l]; try done.
  destruct (h !! l) as [o|] eqn:Hl; [|done].
  destruct o as [props|elems]; intros (parts & Hparts & ->)%fmap_Some;
    apply fmap_Some; exists parts; (split; [|done]);
    apply mapM_Some; apply mapM_Some in Hparts;
    eapply Forall2_impl; [exact Hparts| |exact Hparts|].
  - intros [key v] kj. simpl.
    destruct (stringify fuel h v) as [j|] eqn:Hv; [|done].
    by rewrite (IH fuel' _ _ ltac:(lia) Hv).
  - intros v j. apply IH. lia.
Qed.

Lemma JSON_stringify_prefix h h' v text :
  h `prefix_of` h' → JSON_stringify v h = Some text → JSON_stringify v h' = Some text.
Proof.
  intros Hpre. apply prefix_length in Hpre as Hlen.
  unfold JSON_stringify. destruct v; try done; intros Hs;
    (eapply (stringify_fuel_mono (S (length h))); [lia|]; by eapply stringify_prefix).
Qed.

(** A theme read from a store is read from every extension of it. *)
Lemma reads_as_prefix h h' v t :
  h `prefix_of` h' → reads_as h v t → reads_as h' v t.
Proof.
  intros Hpre (text & Hs & Hd). exists text. split; [|done].
  by eapply JSON_stringify_prefix.
Qed.

Lemma strings_at_prefix h h' v ss :
  h `prefix_of` h' → strings_at h v ss → strings_at h' v ss.
Proof.
  intros Hpre (l & -> & Hl). exists l. split; [done|]. by eapply prefix_lookup_Some.
Qed.

Lemma token_at_prefix h h' v tk :
  h `prefix_of` h' → token_at h v tk → token_at h' v tk.
Proof.
  intros Hpre (l & props & -> & Hl & Hn & Hsc & (ls & sprops & Hvs & Hls & Hst)).
  exists l, props. split_and!; try done.
  - by eapply prefix_lookup_Some.
  - by eapply strings_at_prefix.
  - exists ls, sprops. split_and!; try done. by eapply prefix_lookup_Some.
Qed.

(** A value that denotes a theme denotes it in every extension of the
    store. *)
Lemma theme_at_prefix h h' v t :
  h `prefix_of` h' → theme_at h v t → theme_at h' v t.
Proof.
  intros Hpre (l & props & -> & Hl & Hd & Hc & Ht).
  exists l, props. split_and!; try done.
  - by eapply prefix_lookup_Some.
  - destruct Hd as (ld & dprops & Hvd & Hld & ? & ? & ? & ?).
    exists ld, dprops. split_and!; try done;
      [by eapply prefix_lookup_Some | by eapply strings_at_prefix..].
  - destruct Hc as (lc & Hvc & Hlc). exists lc. split; [done|].
    by eapply prefix_lookup_Some.
  - destruct Ht as (lt & vs & Hvt & Hlt & Hall). exists lt, vs. split_and!; try done.
    + by eapply prefix_lookup_Some.
    + eapply Forall2_impl; [exact Hall|]. intros ??. by apply token_at_prefix.
Qed.

Lemma theme_in_at h lo v t : theme_in h lo v t → theme_at h v t.
Proof.
  intros (r & rprops & vd & jd & ad & bd & lc & ac & lt & vts & at_ & -> & Hr &
          Hvd & Htd & Hdd & Hvc & Hlc & Hvt & Hlt & Htok & _).
  exists r, rprops. split; [done|]. split; [done|].
  rewrite Hvd, Hvc, Hvt. split_and!.
  - by eapply tree_dracula.
  - by exists lc.
  - exists lt, vts. split_and!; try done. by eapply tokens_in_at.
Qed.

(** X9. [JSON.parse(JSON.stringify(theme))] makes a deep copy: on a theme
    that prints to a text reading as [t] it returns, the copy denotes [t],
    the original still reads as [t], and the copy is made of new objects
    only, none of which the original reaches. *)
Theorem JSON_clone_is_a_deep_copy theme h t :
  reads_as h theme t →
  ∃ copy h1,
    JSON_clone theme h = Some (copy, h1) ∧
    h `prefix_of` h1 ∧
    theme_at h1 copy t ∧
    reads_as h1 theme t ∧
    ∀ l, reachable h1 copy l → length h ≤ l ∧ ¬ reachable h1 theme l.
Proof.
  intros Hreads. pose proof Hreads as (text & Hs & Hd).
  destruct (JSON_clone_layout theme h text t Hs Hd) as (copy & h1 & Hclone & Hin).
  destruct (preserves_JSON_clone h theme h copy h1 (extends_refl h) Hclone)
    as [Hext Hfresh].
  exists copy, h1. split_and!; try done.
  - apply Hext.
  - by eapply theme_in_at.
  - eapply reads_as_prefix; [apply Hext | done].
  - intros l Hreach.
    assert (Hle : length h ≤ l) by by eapply reachable_fresh.
    split; [done|]. intros Hreach'.
    destruct (JSON_clone_printed _ _ _ _ Hclone) as [text' Hs'].
    assert (l < length h); [|lia].
    eapply reachable_printed; [apply Hext | exact Hs' | exact Hreach'].
Qed.

Lemma JSON_clone_is_a_deep_copy_witness :
  ∃ copy h1,
    JSON_clone example_store.1 example_store.2 = Some (copy, h1) ∧
    theme_at h1 copy (sanitize example_loaded).
Proof.
  destruct (JSON_clone_is_a_deep_copy example_store.1 example_store.2
              (sanitize example_loaded) example_store_reads_as)
    as (copy & h1 & Hrun & _ & Hat & _).
  exists copy, h1. split; [exact Hrun | exact Hat].
Defined.

End store_extras.

(** X10. The soft transform over the store computes the soft transform on
    theme values: on an input that prints to a text reading as [t] it
    returns a value that denotes [transformSoft t], in a store in which the
    input still reads as [t]. *)
Theorem soft_on_store_computes_soft `{TinyColor}
    (theme : Store.val) (h : Store.heap) (t : Theme) :
  reads_as h theme t →
  ∃ out h',
    Store.transformSoft theme h = Some (out, h') ∧
    theme_at h' out (transformSoft t) ∧
    reads_as h' theme t.
Proof.
  intros Hreads.
  destruct (transformSoft_refines theme h t Hreads) as (out & h' & Hrun & Hat).
  exists out, h'. split_and!; try done.
  destruct (@preserves_transformSoft _ h theme h out h' (extends_refl h) Hrun)
    as [[Hpre _] _].
  by eapply reads_as_prefix.
Qed.

Lemma soft_on_store_computes_soft_witness :
  ∃ out h',
    Store.transformSoft (H := tagging_tinycolor) example_store.1 example_store.2
      = Some (out, h') ∧
    theme_at h' out (transformSoft (H := tagging_tinycolor) (sanitize example_loaded)).
Proof.
  destruct (soft_on_store_computes_soft (H := tagging_tinycolor)
              example_store.1 example_store.2 (sanitize example_loaded)
              example_store_reads_as) as (out & h' & Hrun & Hat & _).
  exists out, h'. split; [exact Hrun | exact Hat].
Defined.

Section store_failures.
Import Store.
Implicit Types (h : heap) (v : val) (l : loc).

(** Reading a member the text lacks, from the copy. *)
Lemma JSON_clone_lacks theme h text key :
  JSON_stringify theme h = Some text → lacks text key →
  ∃ v h1, JSON_clone theme h = Some (v, h1) ∧
          (get v key h1 = None ∨ get v key h1 = Some (VUndefined, h1) ∨
           get v key h1 = Some (VNull, h1)).
Proof.
  intros Hs Hlacks. unfold JSON_clone. rewrite Hs.
  destruct (JSON_parse_tree text h) as (v & h1 & Hrun & _ & Ht).
  exists v, h1. split; [done|].
  destruct text as [|s|items|ms]; inversion Ht as [| |? l vs ? Hparts Hl|? l kvs ? Hparts Hl];
    subst; try (by left).
  - left. unfold get. by rewrite Hl.
  - right. rewrite (get_run _ _ _ key Hl). unfold prop.
    apply member_trees_related in Hparts as (Hnone & Hsome & _).
    destruct Hlacks as [Hk|Hk]; unfold member in Hk.
    + left. by rewrite (Hnone _ Hk).
    + right. destruct (Hsome _ _ Hk) as (v & a & b & -> & Hv & _).
      by inversion Hv.
Qed.

End store_failures.

(** X11. A theme without a palette makes the soft transform throw, and a
    theme without a colour mapping makes the high-contrast transform throw:
    when the input prints to a text that is no object, or has no member
    [dracula] (respectively [colors]), or has [null] there, the transform
    does not return. *)
Theorem transforms_throw_without_their_members `{TinyColor}
    (theme : Store.val) (h : Store.heap) (text : Store.json) :
  Store.JSON_stringify theme h = Some text →
  (lacks text "dracula" → Store.transformSoft theme h = None) ∧
  (lacks text "colors" → Store.transformHighContrast theme h = None).
Proof.
  intros Hs. split; intros Hlacks;
    destruct (JSON_clone_lacks theme h text _ Hs Hlacks) as (v & h1 & Hclone & Hget).
  - unfold Store.transformSoft. rewrite (bind_run _ _ _ _ _ Hclone).
    destruct Hget as [Hget|[Hget|Hget]].
    + unfold Store.bind at 1. by rewrite Hget.
    + by rewrite (bind_run _ _ _ _ _ Hget).
    + by rewrite (bind_run _ _ _ _ _ Hget).
  - unfold Store.transformHighContrast. rewrite (bind_run _ _ _ _ _ Hclone).
    destruct Hget as [Hget|[Hget|Hget]].
    + unfold Store.bind at 1. by rewrite Hget.
    + by rewrite (bind_run _ _ _ _ _ Hget).
    + by rewrite (bind_run _ _ _ _ _ Hget).
Qed.

Lemma transforms_throw_without_their_members_witness :
  Store.transformSoft (H := tagging_tinycolor)
    example_colors_only_store.1 example_colors_only_store.2 = None.
Proof.
  refine (proj1 (transforms_throw_without_their_members (H := tagging_tinycolor)
                   example_colors_only_store.1 example_colors_only_store.2
                   (default Store.JNull
                      (Store.JSON_stringify example_colors_only_store.1
                                            example_colors_only_store.2)) _) _).
  - vm_compute. reflexivity.
  - vm_compute. left. reflexivity.
Defined.

Section hc_colors_only.
Implicit Types (h : Store.heap).

(** After the clone, the high-contrast transform reads and writes the
    colour mapping of the copy, and nothing else of it. *)
Lemma transformHighContrast_run_colors theme h r rprops lc m h1 :
  Store.JSON_clone theme h = Some (Store.VRef r, h1) →
  h1 !! r = Some (Store.Obj rprops) →
  prop rprops "colors" = Store.VRef lc →
  h1 !! lc = Some (Store.Obj (Store.of_jsval <$> m)) →
  lc ≠ r →
  ∃ h', Store.transformHighContrast theme h = Some (Store.VRef r, h') ∧
        h' !! r = Some (Store.Obj rprops) ∧
        h' !! lc = Some (Store.Obj (Store.of_jsval <$> Object_assign (sweep m) overrides)) ∧
        (∀ l, l ≠ lc → l < length h1 → h' !! l = h1 !! l).
Proof.
  intros Hclone Hr Hvc Hlc Hne.
  unfold Store.transformHighContrast.
  rewrite (bind_run _ _ _ _ _ Hclone).
  rewrite (bind_run _ _ _ _ _ (get_run _ _ _ "colors" Hr)), Hvc.
  rewrite (bind_run _ _ _ _ _ (keys_run _ _ _ Hlc)).
  set (m1 := for_of (Object_keys (Store.of_jsval <$> m)) sweep_body m).
  set (h2 := <[lc := Store.Obj (Store.of_jsval <$> m1)]> h1).
  assert (Hloop : Store.for_each (Object_keys (Store.of_jsval <$> m))
                    (Store.sweep_body (Store.VRef lc)) h1 = Some ((), h2)).
  { apply (for_each_object lc (λ _, True)); [done| |done..].
    intros key m' h' _ _ Hl. by apply sweep_body_run. }
  rewrite (bind_run _ _ _ _ _ Hloop).
  assert (Hlclt : lc < length h1) by by eapply lookup_lt_Some.
  assert (Hlen2 : length h2 = length h1) by apply length_insert.
  assert (H12 : ∀ l, l ≠ lc → h2 !! l = h1 !! l).
  { intros l Hl. by apply list_lookup_insert_ne. }
  rewrite (bind_run _ _ _ _ _ (alloc_run _ _)).
  set (table := Store.Obj (Store.of_jsval <$> overrides)).
  set (h3 := h2 ++ [table]).
  assert (Hn3 : h3 !! length h2 = Some table) by by apply list_lookup_middle.
  assert (Hlc3 : h3 !! lc = Some (Store.Obj (Store.of_jsval <$> m1))).
  { apply lookup_app_l_Some. unfold h2. by apply list_lookup_insert_eq. }
  set (m2 := for_of (Object_keys (Store.of_jsval <$> overrides)) override_step m1).
  set (h4 := <[lc := Store.Obj (Store.of_jsval <$> m2)]> h3).
  assert (Hassign : Store.assign (Store.VRef lc) (Store.VRef (length h2)) h3
                    = Some ((), h4)).
  { unfold Store.assign. rewrite (bind_run _ _ _ _ _ (keys_run _ _ _ Hn3)).
    apply (for_each_object lc (λ h', h' !! length h2 = Some table)).
    - intros h' o Hh'. rewrite list_lookup_insert_ne by lia. done.
    - intros key m' h' Hin Hh' Hl. by apply assign_body_run.
    - done.
    - done. }
  rewrite (bind_run _ _ _ _ _ Hassign).
  eexists. split; [reflexivity|].
  assert (H14 : ∀ l, l ≠ lc → l < length h1 → h4 !! l = h1 !! l).
  { intros l Hne' Hlt'. unfold h4, h3. rewrite list_lookup_insert_ne by done.
    rewrite lookup_app_l by lia. by apply H12. }
  assert (Hrlt : r < length h1) by by eapply lookup_lt_Some.
  split_and!.
  - rewrite H14 by done. done.
  - unfold h4. rewrite list_lookup_insert_eq by (unfold h3; rewrite length_app; lia).
    do 3 f_equal. unfold m2. rewrite override_steps_assign.
    f_equal. unfold m1, sweep.
    apply (for_of_keys_fmap _ _ sweep_value), sweep_body_lookup.
  - exact H14.
Qed.

End hc_colors_only.

(** X12. The high-contrast transform needs the colour mapping only: on an
    input that prints to an object with a member [colors] reading as the
    mapping [m], whatever else it has or lacks, the transform returns an
    object whose [colors] is the sweep of [m] overlaid with the override
    table, and a member the input does not have is not added. *)
Theorem hc_needs_the_colors_only
    (theme : Store.val) (h : Store.heap)
    (members : list (string * Store.json)) (jc : Store.json) (m : gmap string jsval) :
  Store.JSON_stringify theme h = Some (Store.JObj members) →
  member members "colors" = Some jc →
  decode_colors jc = Some m →
  ∃ l props h',
    Store.transformHighContrast theme h = Some (Store.VRef l, h') ∧
    h' !! l = Some (Store.Obj props) ∧
    colors_at h' (prop props "colors") (Object_assign (sweep m) overrides) ∧
    (∀ key, member members key = None → prop props key = Store.VUndefined).
Proof.
  intros Hs Hjc Hdc.
  destruct (JSON_parse_tree (Store.JObj members) h) as (v & h1 & Hrun & _ & Ht).
  assert (Hclone : Store.JSON_clone theme h = Some (v, h1)).
  { unfold Store.JSON_clone. by rewrite Hs. }
  inversion Ht as [| | |? r kvs ? Hparts Hr]; subst.
  apply member_trees_related in Hparts as (Hnone & Hsome & _).
  destruct (Hsome _ _ Hjc) as (vc & a & b & Hvc & Htc & _ & Hb).
  destruct (tree_colors _ _ _ _ _ _ Htc Hdc) as (lc & -> & _ & -> & Hlc).
  assert (Hprop : prop (object_literal kvs) "colors" = Store.VRef lc).
  { unfold prop. by rewrite Hvc. }
  destruct (transformHighContrast_run_colors theme h r _ lc m h1 Hclone Hr Hprop Hlc)
    as (h' & Hrun' & Hr' & Hlc' & _); [lia|].
  exists r, (object_literal kvs), h'. split_and!; try done.
  - rewrite Hprop. by exists lc.
  - intros key Hkey. unfold prop. by rewrite (Hnone _ Hkey).
Qed.

Lemma hc_needs_the_colors_only_witness :
  ∃ l props h',
    Store.transformHighContrast example_colors_only_store.1 example_colors_only_store.2
      = Some (Store.VRef l, h') ∧
    h' !! l = Some (Store.Obj props) ∧
    prop props "dracula" = Store.VUndefined.
Proof.
  destruct (hc_needs_the_colors_only
              example_colors_only_store.1 example_colors_only_store.2
              [ ("colors",
                 Store.JObj [ ("editor.background", Store.JStr "#282A36");
                              ("button.background", Store.JStr "#6272A4") ]) ]
              (Store.JObj [ ("editor.background", Store.JStr "#282A36");
                            ("button.background", Store.JStr "#6272A4") ])
              (object_literal [ ("editor.background", Str "#282A36");
                                ("button.background", Str "#6272A4") ]))
    as (l & props & h' & Hrun & Hl & _ & Habsent).
  - vm_compute. reflexivity.
  - vm_compute. reflexivity.
  - vm_compute. reflexivity.
  - exists l, props, h'. split; [exact Hrun|]. split; [exact Hl|].
    apply Habsent. vm_compute. reflexivity.
Defined.

Section sanitize_in_place.
Import Store.
Implicit Types (h : heap) (p props : gmap string val).

Lemma delete_falsy_lookup key p k :
  delete_falsy key p !! k =
  if decide (k = key)
  then (λ _ ov, if Generator.truthy (default VUndefined ov) then ov else None)
         key (p !! key)
  else p !! k.
Proof.
  unfold delete_falsy, prop. destruct (Generator.truthy _) eqn:Ht.
  - by destruct (decide (k = key)) as [->|].
  - destruct (decide (k = key)) as [->|];
      [by rewrite lookup_delete_eq | by rewrite lookup_delete_ne].
Qed.

(** Deleting, key by key, what is falsy keeps what is truthy. *)
Lemma delete_falsy_own_keys p :
  for_of (Object_keys p) delete_falsy p
  = filter (λ kv, Generator.truthy kv.2 = true) p.
Proof.
  apply map_eq. intros k.
  rewrite (for_of_own_keys delete_falsy _ delete_falsy_lookup).
  rewrite map_lookup_filter. destruct (p !! k) as [v|]; simpl; [|done].
  destruct (Generator.truthy v) eqn:Hv.
  - by rewrite option_guard_True.
  - rewrite option_guard_False; [done|]. simpl. congruence.
Qed.

Lemma truthy_of_jsval (c : jsval) : Generator.truthy (of_jsval c) = truthy (Some c).
Proof. by destruct c. Qed.

Lemma filter_truthy_sanitize (m : gmap string jsval) :
  filter (λ kv, Generator.truthy kv.2 = true) (of_jsval <$> m)
  = of_jsval <$> sanitize_colors m.
Proof.
  apply map_eq. intros k.
  rewrite map_lookup_filter, !lookup_fmap, sanitize_colors_lookup.
  unfold sanitize_value. destruct (m !! k) as [c|]; [|done].
  cbn [fmap option_fmap option_map mbind option_bind].
  rewrite <-truthy_of_jsval. destruct (Generator.truthy (of_jsval c)) eqn:Hc.
  - by rewrite option_guard_True.
  - rewrite option_guard_False; [done|]. simpl. congruence.
Qed.

Lemma sanitize_loop r lc ks : ∀ p h,
  h !! lc = Some (Obj p) →
  get (VRef r) "colors" h = Some (VRef lc, h) →
  for_each ks (Generator.sanitize_body (VRef r)) h
  = Some ((), <[lc := Obj (for_of ks delete_falsy p)]> h).
Proof.
  unfold for_of. induction ks as [|key ks IH]; intros p h Hl Hget; simpl.
  - unfold ret. by rewrite list_insert_id.
  - assert (Hbody : Generator.sanitize_body (VRef r) key h
                    = Some ((), <[lc := Obj (delete_falsy key p)]> h)).
    { unfold Generator.sanitize_body.
      rewrite (bind_run _ _ _ _ _ Hget).
      rewrite (bind_run _ _ _ _ _ (get_run _ _ _ key Hl)).
      unfold delete_falsy. destruct (Generator.truthy (prop p key)); simpl.
      - unfold ret. by rewrite list_insert_id.
      - rewrite (bind_run _ _ _ _ _ Hget). unfold Generator.delete_property.
        by rewrite Hl. }
    rewrite (bind_run _ _ _ _ _ Hbody).
    assert (Hlt : lc < length h) by by eapply lookup_lt_Some.
    rewrite (IH (delete_falsy key p)).
    + by rewrite list_insert_insert_eq.
    + by apply list_lookup_insert_eq.
    + unfold get in *. destruct (decide (r = lc)) as [->|Hne].
      * rewrite Hl in Hget. rewrite list_lookup_insert_eq by done.
        injection Hget as Hc. do 2 f_equal.
        rewrite <-Hc. f_equal. unfold delete_falsy.
        destruct (Generator.truthy (prop p key)) eqn:Hk; [done|].
        apply lookup_delete_ne. intros ->. unfold prop in Hk.
        by rewrite Hc in Hk.
      * rewrite list_lookup_insert_ne by done.
        destruct (h !! r) as [[rp|]|]; try done.
        injection Hget as Hc. by rewrite Hc.
Qed.

End sanitize_in_place.

(** X13. The delete loop works on the loaded object itself: run on an
    object whose [colors] is an object holding [props], it returns, the
    colour object then holds exactly the properties of [props] with a truthy
    value, and no other object of the store is changed; when [props] are the
    colours of a mapping, these are the colours of its sanitation. *)
Theorem sanitize_works_in_place
    (h : Store.heap) (r lc : nat) (rprops props : gmap string Store.val) :
  h !! r = Some (Store.Obj rprops) →
  prop rprops "colors" = Store.VRef lc →
  h !! lc = Some (Store.Obj props) →
  Generator.sanitize (Store.VRef r) h
    = Some ((), <[lc := Store.Obj (filter (λ kv, Generator.truthy kv.2 = true) props)]> h) ∧
  ∀ m, props = Store.of_jsval <$> m →
       filter (λ kv, Generator.truthy kv.2 = true) props
       = Store.of_jsval <$> sanitize_colors m.
Proof.
  intros Hr Hc Hl. split.
  - unfold Generator.sanitize.
    pose proof (get_run _ _ _ "colors" Hr) as Hget. rewrite Hc in Hget.
    rewrite (bind_run _ _ _ _ _ Hget).
    rewrite (bind_run _ _ _ _ _ (keys_run _ _ _ Hl)).
    rewrite (sanitize_loop r lc _ props h Hl Hget).
    by rewrite delete_falsy_own_keys.
  - intros m ->. apply filter_truthy_sanitize.
Qed.

Lemma sanitize_works_in_place_witness :
  Generator.sanitize (Store.VRef 13) example_loaded_store.2
  = Some ((), <[5 := Store.Obj (Store.of_jsval <$> sanitize_colors (colors example_loaded))]>
                example_loaded_store.2).
Proof.
  pose (rprops := match example_loaded_store.2 !! 13 with
                  | Some (Store.Obj p) => p
                  | _ => ∅
                  end).
  destruct (sanitize_works_in_place example_loaded_store.2 13 5 rprops
              (Store.of_jsval <$> colors example_loaded)) as [Hrun Hfilter].
  - vm_compute. reflexivity.
  - vm_compute. reflexivity.
  - vm_compute. reflexivity.
  - rewrite (Hfilter _ eq_refl) in Hrun. exact Hrun.
Defined.

(** X14. The generator over the store: once the delete loop has run and
    the loaded object reads as the theme [t], the generator returns that
    same object as the base variant, together with a soft and a
    high-contrast variant that denote [transformSoft t] and
    [transformHighContrast t] in the final store, where the base variant
    still reads as [t]: making the later variant does not disturb the
    earlier ones. *)
Theorem generate_on_store `{TinyColor}
    (base : Store.val) (h h1 : Store.heap) (t : Theme) :
  Generator.sanitize base h = Some ((), h1) →
  reads_as h1 base t →
  ∃ soft hc h',
    Generator.generate base h = Some ((base, soft, hc), h') ∧
    h1 `prefix_of` h' ∧
    reads_as h' base t ∧
    theme_at h' soft (transformSoft t) ∧
    theme_at h' hc (transformHighContrast t).
Proof.
  intros Hsan Hreads.
  destruct (transformSoft_refines base h1 t Hreads) as (soft & h2 & Hsoft & Hat_soft).
  destruct (@preserves_transformSoft _ h1 base h1 soft h2 (extends_refl h1) Hsoft)
    as [[Hpre12 _] _].
  pose proof (reads_as_prefix _ _ _ _ Hpre12 Hreads) as Hreads2.
  destruct (transformHighContrast_refines base h2 t Hreads2) as (hc & h3 & Hhc & Hat_hc).
  destruct (preserves_transformHighContrast h2 base h2 hc h3 (extends_refl h2) Hhc)
    as [[Hpre23 _] _].
  exists soft, hc, h3. split_and!.
  - unfold Generator.generate.
    rewrite (bind_run _ _ _ _ _ Hsan), (bind_run _ _ _ _ _ Hsoft),
            (bind_run _ _ _ _ _ Hhc).
    done.
  - by etrans.
  - by eapply reads_as_prefix.
  - by eapply theme_at_prefix.
  - done.
Qed.

Lemma generate_on_store_witness :
  ∃ soft hc h',
    Generator.generate (H := tagging_tinycolor) (Store.VRef 13) example_loaded_store.2
      = Some ((Store.VRef 13, soft, hc), h') ∧
    theme_at h' soft (transformSoft (H := tagging_tinycolor) (sanitize example_loaded)) ∧
    theme_at h' hc (transformHighContrast (sanitize example_loaded)).
Proof.
  destruct (generate_on_store (H := tagging_tinycolor) (Store.VRef 13)
              example_loaded_store.2
              (<[5 := Store.Obj (Store.of_jsval <$> sanitize_colors (colors example_loaded))]>
                 example_loaded_store.2)
              (sanitize example_loaded))
    as (soft & hc & h' & Hrun & _ & _ & Hsoft & Hhc).
  - vm_compute. reflexivity.
  - eexists. split; vm_compute; reflexivity.
  - exists soft, hc, h'. split; [exact Hrun|]. split; [exact Hsoft | exact Hhc].
Defined.

(** * The variants of the generator are apart from one another *)

Section closed_logic.
Import Store.
Variable N : nat.
Implicit Types (h : heap) (v : val) (l : loc) (P : Prop).

Lemma valid_mono n n' v : n ≤ n' → valid n v → valid n' v.
Proof. destruct v; simpl; lia. Qed.

Lemma closed_below_mono n n' h : n ≤ n' → closed_below n h → closed_below n' h.
Proof.
  intros Hle Hc. eapply Forall_impl; [exact Hc|]. intros o Ho.
  eapply Forall_impl; [exact Ho|]. intros v. by apply valid_mono.
Qed.

Lemma closed_below_lookup n h l o :
  closed_below n h → h !! l = Some o → Forall (valid n) (object_vals o).
Proof.
  intros Hc Hl.
  exact (Forall_lookup_1 (λ o, Forall (valid n) (object_vals o)) h l o Hc Hl).
Qed.

Lemma keeps_ret {A} (a : A) P (Q : A → Prop) : (P → Q a) → keeps N (ret a) P Q.
Proof. intros HQ h a' h' [= <- <-]. split; [done|]. auto. Qed.

Lemma keeps_throw {A} P (Q : A → Prop) : keeps N throw P Q.
Proof. by intros h a h' ?. Qed.

Lemma keeps_bind {A B} (c : js A) (k : A → js B) P (Q1 : A → Prop) (Q2 : B → Prop) :
  keeps N c P Q1 → (∀ a, keeps N (k a) (P ∧ Q1 a) Q2) → keeps N (bind c k) P Q2.
Proof.
  intros Hc Hk h b h2 (a & h1 & Hrun & Hcont)%bind_Some.
  destruct (Hc h a h1 Hrun) as [Hle1 H1].
  destruct (Hk a h1 b h2 Hcont) as [Hle2 H2].
  split; [lia|]. intros HP HN Hclosed.
  destruct H1 as [Hclosed1 HQ1]; [done | lia | done |].
  by apply H2.
Qed.

Lemma keeps_weaken {A} (c : js A) P P' (Q Q' : A → Prop) :
  keeps N c P Q → (P' → P) → (∀ a, Q a → Q' a) → keeps N c P' Q'.
Proof.
  intros Hc HP HQ h a h' Hrun. destruct (Hc h a h' Hrun) as [Hle H1].
  split; [done|]. intros HP' HN Hclosed.
  destruct H1 as [? ?]; auto.
Qed.

Lemma keeps_alloc (o : object) P :
  (P → Forall (valid N) (object_vals o)) → keeps N (alloc o) P (valid N).
Proof.
  intros Ho h a h' [= <- <-]. rewrite length_app. simpl. split; [lia|].
  intros HP HN Hclosed. split; [|simpl; lia].
  apply Forall_app. split; [done|]. apply Forall_singleton. auto.
Qed.

Lemma keeps_get v key P : keeps N (get v key) P (valid N).
Proof.
  intros h a h' Hrun. unfold get in Hrun.
  destruct v as [| | |l]; try done.
  destruct (h !! l) as [[props|]|] eqn:Hl; try done.
  injection Hrun as <- <-. split; [done|]. intros _ _ Hclosed. split; [done|].
  destruct (props !! key) as [x|] eqn:Hx; [|done]. simpl.
  eapply Forall_forall; [by eapply closed_below_lookup|].
  by eapply elem_of_props_vals.
Qed.

Lemma keeps_elements v P : keeps N (elements v) P (Forall (valid N)).
Proof.
  intros h a h' Hrun. unfold elements in Hrun.
  destruct v as [| | |l]; try done.
  destruct (h !! l) as [[|elems]|] eqn:Hl; try done.
  injection Hrun as <- <-. split; [done|]. intros _ _ Hclosed. split; [done|].
  by apply (closed_below_lookup _ _ _ _ Hclosed Hl).
Qed.

Lemma keeps_keys v P : keeps N (keys v) P (λ _, True).
Proof.
  intros h a h' Hrun. unfold keys in Hrun.
  destruct v as [| | |l]; try done.
  destruct (h !! l) as [[|]|]; try done.
  injection Hrun as <- <-. split; [done|]. auto.
Qed.

Lemma closed_below_insert h l (o : object) :
  closed_below N h → Forall (valid N) (object_vals o) → closed_below N (<[l := o]> h).
Proof. intros Hc Ho. by apply Forall_insert. Qed.

Lemma keeps_set v key x P :
  (P → valid N x) → keeps N (set v key x) P (λ _, True).
Proof.
  intros Hx h a h' Hrun. unfold set in Hrun.
  destruct v as [| | |l]; try done.
  destruct (h !! l) as [[props|]|] eqn:Hl; try done.
  injection Hrun as <- <-. rewrite length_insert. split; [done|].
  intros HP _ Hclosed. split; [|done].
  apply closed_below_insert; [done|].
  apply Forall_forall. intros v' [->|Hin]%elem_of_insert_vals; [auto|].
  eapply Forall_forall; [by eapply closed_below_lookup | done].
Qed.

Lemma keeps_delete_property v key P :
  keeps N (Generator.delete_property v key) P (λ _, True).
Proof.
  intros h a h' Hrun. unfold Generator.delete_property in Hrun.
  destruct v as [| | |l]; try done.
  destruct (h !! l) as [[props|]|] eqn:Hl; try done.
  injection Hrun as <- <-. rewrite length_insert. split; [done|].
  intros HP _ Hclosed. split; [|done].
  apply closed_below_insert; [done|].
  apply Forall_forall. intros v' ([k x] & -> & Hin)%list_elem_of_fmap.
  apply elem_of_map_to_list, lookup_delete_Some in Hin as [_ Hin].
  eapply Forall_forall; [by eapply closed_below_lookup|].
  by eapply elem_of_props_vals.
Qed.

Lemma keeps_for_each {A} (xs : list A) (body : A → js unit) P :
  (∀ x, keeps N (body x) P (λ _, True)) →
  keeps N (for_each xs body) P (λ _, True).
Proof.
  intros Hbody. induction xs as [|x xs IH]; simpl.
  - by apply keeps_ret.
  - eapply keeps_bind; [apply Hbody|]. intros ?.
    eapply keeps_weaken; [apply IH | tauto | done].
Qed.

Lemma keeps_traverse {A B} (f : A → js B) (xs : list A) P
    (R : A → Prop) (Q : B → Prop) :
  Forall (λ x, keeps N (f x) (P ∧ R x) Q) xs →
  keeps N (traverse f xs) (P ∧ Forall R xs) (Forall Q).
Proof.
  induction xs as [|x xs IH]; intros Hf; simpl.
  - by apply keeps_ret.
  - apply Forall_cons in Hf as [Hx Hxs]. eapply keeps_bind.
    { eapply keeps_weaken; [apply Hx | | done].
      intros [HP [HR _]%Forall_cons]. done. }
    intros y. eapply keeps_bind.
    { eapply keeps_weaken; [by apply IH | | done].
      intros [[HP [_ HR]%Forall_cons] _]. done. }
    intros ys. apply keeps_ret. intros [[_ Hy] Hys]. by constructor.
Qed.

Lemma object_literal_vals_valid (kvs : list (string * val)) :
  Forall (λ kv, valid N kv.2) kvs →
  Forall (valid N) (object_vals (Obj (object_literal kvs))).
Proof.
  intros Hkvs. apply Forall_forall. intros v Hin.
  apply elem_of_for_of_insert_vals in Hin as [Hin|Hin].
  - apply list_elem_of_fmap in Hin as (kv & -> & Hin).
    by apply (proj1 (Forall_forall _ _) Hkvs kv).
  - simpl in Hin. rewrite map_to_list_empty in Hin. by apply elem_of_nil in Hin.
Qed.

(** Parsing builds a structure without dangling references. *)
Lemma keeps_JSON_parse (text : json) : ∀ P, keeps N (JSON_parse text) P (valid N).
Proof.
  induction text as [|s|items IH|members IH] using json_nested_ind; intros P; simpl.
  - by apply keeps_ret.
  - by apply keeps_ret.
  - eapply keeps_bind.
    + eapply keeps_weaken;
        [apply (keeps_traverse JSON_parse items P (λ _, True) (valid N)) | | done].
      * eapply Forall_impl; [exact IH|]. intros item Hitem. apply Hitem.
      * intros HP. split; [done|]. by apply Forall_true.
    + intros vs. apply keeps_alloc. by intros [_ Hvs].
  - eapply keeps_bind.
    + eapply keeps_weaken;
        [apply (keeps_traverse _ members P (λ _, True) (λ kv, valid N kv.2)) | | done].
      * eapply Forall_impl; [exact IH|]. intros [key item] Hitem. simpl in *.
        eapply keeps_bind; [apply Hitem|]. intros v. apply keeps_ret. by intros [_ Hv].
      * intros HP. split; [done|]. by apply Forall_true.
    + intros kvs. apply keeps_alloc. intros [_ Hkvs].
      by apply object_literal_vals_valid.
Qed.

Lemma keeps_JSON_clone theme P : keeps N (JSON_clone theme) P (valid N).
Proof.
  intros h a h' Hrun. unfold JSON_clone in Hrun.
  destruct (JSON_stringify theme h) as [text|]; [|done].
  by eapply keeps_JSON_parse.
Qed.

Lemma keeps_soft_body `{TinyColor} bright colors key P :
  keeps N (soft_body bright colors key) P (λ _, True).
Proof.
  unfold soft_body. eapply keeps_bind; [apply keeps_get|]. intros c.
  destruct (includes bright c); [|by apply keeps_ret].
  destruct c; try apply keeps_throw. by apply keeps_set.
Qed.

Lemma keeps_soft_token `{TinyColor} bright value P :
  keeps N (soft_token bright value) (P ∧ valid N value) (valid N).
Proof.
  unfold soft_token.
  eapply keeps_bind; [apply keeps_get|]. intros settings.
  eapply keeps_bind; [apply keeps_get|]. intros fg.
  destruct (includes bright fg); [|apply keeps_ret; tauto].
  destruct fg; try apply keeps_throw.
  eapply keeps_bind; [by apply keeps_set|]. intros ?.
  apply keeps_ret. tauto.
Qed.

(** The soft transform leaves no dangling reference, and returns none. *)
Lemma keeps_transformSoft `{TinyColor} theme :
  keeps N (transformSoft theme) True (valid N).
Proof.
  unfold transformSoft.
  eapply keeps_bind; [apply keeps_JSON_clone|]. intros soft.
  eapply keeps_bind; [apply keeps_get|]. intros dracula.
  eapply keeps_bind; [apply keeps_get|]. intros ansi.
  eapply keeps_bind; [apply keeps_elements|]. intros ansi_elems.
  eapply keeps_bind; [apply keeps_get|]. intros brightOther.
  eapply keeps_bind; [apply keeps_elements|]. intros brightOther_elems.
  cbv zeta.
  eapply keeps_bind; [apply keeps_get|]. intros colors.
  eapply keeps_bind; [apply keeps_keys|]. intros ks.
  eapply keeps_bind; [apply keeps_for_each; intros key; apply keeps_soft_body|].
  intros ?.
  eapply keeps_bind; [apply keeps_get|]. intros tokenColors.
  eapply keeps_bind; [apply keeps_elements|]. intros rules.
  eapply keeps_bind.
  { eapply keeps_weaken;
      [apply (keeps_traverse _ rules True (valid N) (valid N)) | | done].
    - apply Forall_forall. intros value _. apply keeps_soft_token.
    - intros [_ Hrules]. done. }
  intros mapped.
  eapply keeps_bind; [apply keeps_alloc; by intros [_ Hm]|]. intros mapped_array.
  eapply keeps_bind; [apply keeps_set; by intros [_ Hm]|]. intros ?.
  apply keeps_ret. tauto.
Qed.

Lemma keeps_sanitize_body base key P :
  keeps N (Generator.sanitize_body base key) P (λ _, True).
Proof.
  unfold Generator.sanitize_body.
  eapply keeps_bind; [apply keeps_get|]. intros colors.
  eapply keeps_bind; [apply keeps_get|]. intros c.
  destruct (negb _); [|by apply keeps_ret].
  eapply keeps_bind; [apply keeps_get|]. intros colors'.
  apply keeps_delete_property.
Qed.

Lemma keeps_sanitize base P : keeps N (Generator.sanitize base) P (λ _, True).
Proof.
  unfold Generator.sanitize.
  eapply keeps_bind; [apply keeps_get|]. intros colors.
  eapply keeps_bind; [apply keeps_keys|]. intros ks.
  apply keeps_for_each. intros key. apply keeps_sanitize_body.
Qed.

End closed_logic.

Section separation.
Import Store.
Implicit Types (h : heap) (v : val) (l : loc).

(** In a store without dangling references, what a value reaches in an
    extension of the store lies in the store. *)
Lemma reachable_closed h h' v l :
  closed h → h `prefix_of` h' → valid (length h) v →
  reachable h' v l → l < length h.
Proof.
  intros Hclosed Hpre Hv Hreach.
  induction Hreach as [l o Hl | l o v' l' Hl Hin _ IH]; [done|].
  apply IH. simpl in Hv.
  destruct Hpre as [t ->]. rewrite lookup_app_l in Hl by done.
  eapply Forall_forall; [by eapply closed_below_lookup | done].
Qed.

End separation.

(** X15. The three variants the generator returns share no object: in a
    store without dangling references, nothing the soft variant reaches is
    reached by the base or by the high-contrast variant, and nothing the
    high-contrast variant reaches is reached by the base variant. *)
Theorem variants_are_separate `{TinyColor}
    (loaded base soft hc : Store.val) (h h' : Store.heap) :
  closed h →
  Generator.generate loaded h = Some ((base, soft, hc), h') →
  base = loaded ∧
  ∀ l,
    (Store.reachable h' soft l →
       ¬ Store.reachable h' base l ∧ ¬ Store.reachable h' hc l) ∧
    (Store.reachable h' hc l → ¬ Store.reachable h' base l).
Proof.
  intros Hclosed Hrun. unfold Generator.generate in Hrun.
  apply bind_Some in Hrun as ([] & h1 & Hsan & Hrun).
  apply bind_Some in Hrun as (soft' & h2 & Hsoft & Hrun).
  apply bind_Some in Hrun as (hc' & h3 & Hhc & Hret).
  injection Hret as <- <- <- <-. split; [done|].
  (* the store after the soft transform has no dangling reference *)
  destruct (keeps_sanitize (length h2) loaded True h () h1 Hsan) as [Hle01 Hkeep1].
  destruct (keeps_transformSoft (length h2) loaded h1 soft' h2 Hsoft) as [Hle12 Hkeep2].
  destruct Hkeep1 as [Hclosed1 _]; [done | lia | |].
  { eapply closed_below_mono; [|exact Hclosed]. lia. }
  destruct Hkeep2 as [Hclosed2 Hvalid]; [done | lia | done |].
  (* where the variants are *)
  destruct (@preserves_transformSoft _ h1 loaded h1 soft' h2 (extends_refl h1) Hsoft)
    as [Hext12 Hfresh_soft].
  destruct (preserves_transformHighContrast h1 loaded h2 hc' h3 Hext12 Hhc)
    as [Hext13 _].
  destruct (preserves_transformHighContrast h2 loaded h2 hc' h3 (extends_refl h2) Hhc)
    as [Hext23 Hfresh_hc].
  assert (Hprinted : ∃ text, Store.stringify (S (length h1)) h1 loaded = Some text).
  { unfold Store.transformSoft in Hsoft.
    apply bind_Some in Hsoft as (copy & h1' & Hclone & _).
    by eapply JSON_clone_printed. }
  destruct Hprinted as [text Hs].
  assert (Hbase : ∀ l, Store.reachable h3 loaded l → l < length h1).
  { intros l. eapply reachable_printed; [apply Hext13 | exact Hs]. }
  assert (Hsoft_lo : ∀ l, Store.reachable h3 soft' l → length h1 ≤ l).
  { intros l. by eapply reachable_fresh. }
  assert (Hsoft_hi : ∀ l, Store.reachable h3 soft' l → l < length h2).
  { intros l. eapply reachable_closed; [exact Hclosed2 | apply Hext23 | exact Hvalid]. }
  assert (Hhc_lo : ∀ l, Store.reachable h3 hc' l → length h2 ≤ l).
  { intros l. by eapply reachable_fresh. }
  intros l. split.
  - intros Hl. split; intros Hl'.
    + apply Hbase in Hl'. apply Hsoft_lo in Hl. lia.
    + apply Hhc_lo in Hl'. apply Hsoft_hi in Hl. lia.
  - intros Hl Hl'. apply Hbase in Hl'. apply Hhc_lo in Hl. lia.
Qed.

Lemma variants_are_separate_witness :
  closed example_loaded_store.2 ∧
  ∃ soft hc h',
    Generator.generate (H := tagging_tinycolor) (Store.VRef 13) example_loaded_store.2
      = Some ((Store.VRef 13, soft, hc), h') ∧
    ∀ l, Store.reachable h' soft l → ¬ Store.reachable h' hc l.
Proof.
  assert (Hclosed : closed example_loaded_store.2).
  { apply (bool_decide_unpack _). vm_compute. reflexivity. }
  assert (Hsome : is_Some (Generator.generate (H := tagging_tinycolor)
                             (Store.VRef 13) example_loaded_store.2)).
  { apply (bool_decide_unpack _). vm_compute. reflexivity. }
  destruct Hsome as [[[[base soft] hc] h'] Hrun].
  destruct (variants_are_separate (H := tagging_tinycolor) _ _ _ _ _ _ Hclosed Hrun)
    as [-> Hsep].
  split; [exact Hclosed|].
  exists soft, hc, h'. split; [exact Hrun|].
  intros l Hl. exact (proj2 (proj1 (Hsep l) Hl)).
Defined.
